(** * Delivery path optimizer: a shallow embedding of [delpathopt.cpp]

    The class [DeliveryPathOptimizer] keeps an undirected weighted multigraph
    of named locations:
    - [locationToIndex], an [unordered_map<string,int>], is a [gmap string nat];
    - [indexToLocation], a [vector<string>], is a [list string];
    - [adjList], a [vector<vector<pair<int,int>>>], is a list of rows of
      (neighbour handle, cost) pairs;
    - [locationCount] is the number of live locations.

    Handles and the location count only ever hold vector indices, so they are
    natural numbers here.  Costs and distances are C++ [int]s: they are
    integers in [Z], and the two places where the program computes with them
    ([dist[u] + cost] and [dist[i] * 5]) are reduced to 32 bits by [wrap],
    the two's complement result (C++ leaves signed overflow undefined).

    A vector read beyond its size is undefined in the source; here [l !!! i]
    then yields the default value of the type and an update does nothing.
    On the states the mutations can reach ([graph_inv]) every handle stored
    in the map or in a row is below the location count, so no such access
    happens there.

    Every method prints one line on [cout]; the line is the [outcome] returned
    next to the new state.  The two queries are [const] methods: they return
    what they print and cannot change the state.  Their [while] loops are
    bounded by an explicit [fuel]; [None] means the fuel ran out. *)

From Stdlib Require Import ZArith Lia.
From stdpp Require Import base list gmap strings sorting.

Local Open Scope Z_scope.
Local Open Scope nat_scope.

(** ** State *)

Record DeliveryPathOptimizer : Type := mkDPO {
  locationToIndex : gmap string nat;
  indexToLocation : list string;
  adjList : list (list (nat * Z));
  locationCount : nat
}.

(** The constructor: no location. *)
Definition empty_dpo : DeliveryPathOptimizer :=
  mkDPO ∅ [] [] 0.

(** The line a mutating method prints. *)
Inductive outcome : Type :=
| LocationAdded            (* "Location '...' added." *)
| LocationAlreadyExists    (* "Location already exists." *)
| LocationRemoved          (* "Location '...' removed." *)
| LocationNotFound         (* "Location not found." *)
| RouteAdded               (* "Route from '...' to '...' added with cost ..." *)
| RouteRemoved             (* "Route between '...' and '...' removed." *)
| EndpointsNotFound.       (* "One or both locations not found." *)

(** [locationToIndex.count(name)] *)
Definition has_location (g : DeliveryPathOptimizer) (name : string) : bool :=
  bool_decide (is_Some (locationToIndex g !! name)).

(** ** Mutations *)

Definition addLocation (name : string) (g : DeliveryPathOptimizer)
  : DeliveryPathOptimizer * outcome :=
  if has_location g name then (g, LocationAlreadyExists)
  else
    (mkDPO (<[name := locationCount g]> (locationToIndex g))
           (indexToLocation g ++ [name])
           (adjList g ++ [[]])
           (S (locationCount g)),
     LocationAdded).

(** The loop [for (i = 0; i < indexToLocation.size(); ++i)
    locationToIndex[indexToLocation[i]] = i], started at index [i]. *)
Fixpoint rebuild_index (i : nat) (names : list string) (m : gmap string nat)
  : gmap string nat :=
  match names with
  | [] => m
  | name :: rest => rebuild_index (S i) rest (<[name := i]> m)
  end.

(** What [removeLocation] does to one surviving row: the entries that target
    [idx] are erased, then the targets above [idx] are decremented. *)
Definition shift_entry (idx : nat) (p : nat * Z) : nat * Z :=
  if bool_decide (idx < p.1) then (pred p.1, p.2) else p.

Definition compact_row (idx : nat) (neighbors : list (nat * Z)) : list (nat * Z) :=
  shift_entry idx <$> filter (λ p, p.1 ≠ idx) neighbors.

Definition removeLocation (name : string) (g : DeliveryPathOptimizer)
  : DeliveryPathOptimizer * outcome :=
  match locationToIndex g !! name with
  | None => (g, LocationNotFound)
  | Some idx =>
      let adj := delete idx (adjList g) in
      let names := delete idx (indexToLocation g) in
      (mkDPO (rebuild_index 0 names ∅)
             names
             (compact_row idx <$> adj)
             (pred (locationCount g)),
       LocationRemoved)
  end.

(** [adjList[u].push_back(make_pair(v, cost))] *)
Definition push_edge (u v : nat) (cost : Z) (adj : list (list (nat * Z)))
  : list (list (nat * Z)) :=
  alter (λ row, row ++ [(v, cost)]) u adj.

Definition addRoute (from to : string) (cost : Z) (g : DeliveryPathOptimizer)
  : DeliveryPathOptimizer * outcome :=
  match locationToIndex g !! from, locationToIndex g !! to with
  | Some u, Some v =>
      (mkDPO (locationToIndex g)
             (indexToLocation g)
             (push_edge v u cost (push_edge u v cost (adjList g)))
             (locationCount g),
       RouteAdded)
  | _, _ => (g, EndpointsNotFound)
  end.

(** [list.erase(remove_if(..., p.first == v), list.end())] on row [u] *)
Definition erase_edges (u v : nat) (adj : list (list (nat * Z)))
  : list (list (nat * Z)) :=
  alter (filter (λ p, p.1 ≠ v)) u adj.

Definition removeRoute (from to : string) (g : DeliveryPathOptimizer)
  : DeliveryPathOptimizer * outcome :=
  match locationToIndex g !! from, locationToIndex g !! to with
  | Some u, Some v =>
      (mkDPO (locationToIndex g)
             (indexToLocation g)
             (erase_edges v u (erase_edges u v (adjList g)))
             (locationCount g),
       RouteRemoved)
  | _, _ => (g, EndpointsNotFound)
  end.

(** [showLocations] prints the names in handle order. *)
Definition showLocations (g : DeliveryPathOptimizer) : list string :=
  indexToLocation g.

(** ** 32-bit arithmetic *)

Definition INT_MAX : Z := 2147483647.

(** Reduction of an integer to the range of a 32-bit two's complement [int]. *)
Definition wrap (z : Z) : Z := ((z + 2147483648) mod 4294967296 - 2147483648)%Z.

(** ** Shortest paths: [optimizeDeliveryPlan] *)

(** An entry of the priority queue: (distance, vertex). *)
Definition entry : Type := (Z * nat)%type.

(** [operator<] on [pair<int,int>]: lexicographic. *)
Definition entry_ltb (a b : entry) : bool :=
  (a.1 <? b.1)%Z || ((a.1 =? b.1)%Z && (a.2 <? b.2)).

(** The least entry of [e :: l]. *)
Fixpoint pq_min (e : entry) (l : list entry) : entry :=
  match l with
  | [] => e
  | x :: rest => pq_min (if entry_ltb x e then x else e) rest
  end.

Fixpoint remove_first (e : entry) (l : list entry) : list entry :=
  match l with
  | [] => []
  | x :: rest => if decide (x = e) then rest else x :: remove_first e rest
  end.

(** [pq.top()] followed by [pq.pop()] on a min-heap ordered by
    [greater<pair<int,int>>]: the least entry leaves the queue. *)
Definition pq_pop (pq : list entry) : option (entry * list entry) :=
  match pq with
  | [] => None
  | e :: rest => let m := pq_min e rest in Some (m, remove_first m pq)
  end.

(** [pq.push(e)] *)
Definition pq_push (e : entry) (pq : list entry) : list entry := e :: pq.

(** The [for] loop over [adjList[u]]: the relaxation of every edge leaving
    [u].  [dist[u]] is read again at every edge, as in the source. *)
Fixpoint relax (u : nat) (edges : list (nat * Z)) (dist : list Z) (pq : list entry)
  : list Z * list entry :=
  match edges with
  | [] => (dist, pq)
  | (v, cost) :: rest =>
      let nd := wrap (dist !!! u + cost) in
      if (nd <? dist !!! v)%Z
      then relax u rest (<[v := nd]> dist) (pq_push (nd, v) pq)
      else relax u rest dist pq
  end.

(** The [while (!pq.empty())] loop. *)
Fixpoint dijkstra_loop (fuel : nat) (adj : list (list (nat * Z)))
  (dist : list Z) (pq : list entry) : option (list Z) :=
  match fuel with
  | 0 => None
  | S fuel' =>
      match pq_pop pq with
      | None => Some dist
      | Some ((d, u), pq') =>
          if (dist !!! u <? d)%Z then dijkstra_loop fuel' adj dist pq'
          else
            let '(dist', pq'') := relax u (adj !!! u) dist pq' in
            dijkstra_loop fuel' adj dist' pq''
      end
  end.

(** One printed line of the plan. *)
Inductive plan_line : Type :=
| Unreachable (name : string)
| Eta (name : string) (eta cost : Z).

Definition report_line (names : list string) (dist : list Z) (i : nat) : plan_line :=
  if (dist !!! i =? INT_MAX)%Z then Unreachable (names !!! i)
  else Eta (names !!! i) (dist !!! i) (wrap (dist !!! i * 5)).

Definition report (names : list string) (dist : list Z) (n : nat) : list plan_line :=
  report_line names dist <$> seq 0 n.

Inductive plan_result : Type :=
| PlanStartNotFound                    (* "Starting location not found." *)
| Plan (lines : list plan_line).

(** The distance array at the end of the loop. *)
Definition shortest_distances (fuel : nat) (g : DeliveryPathOptimizer) (src : nat)
  : option (list Z) :=
  let n := locationCount g in
  let dist := <[src := 0%Z]> (replicate n INT_MAX) in
  dijkstra_loop fuel (adjList g) dist (pq_push (0%Z, src) []).

Definition optimizeDeliveryPlan (fuel : nat) (g : DeliveryPathOptimizer) (start : string)
  : option plan_result :=
  match locationToIndex g !! start with
  | None => Some PlanStartNotFound
  | Some src =>
      dist ← shortest_distances fuel g src;
      Some (Plan (report (indexToLocation g) dist (locationCount g)))
  end.

(** ** Breadth-first traversal: [simulateDelivery] *)

(** The [for] loop over [adjList[curr]]. *)
Fixpoint visit_neighbors (edges : list (nat * Z)) (visited : list bool) (q : list nat)
  : list bool * list nat :=
  match edges with
  | [] => (visited, q)
  | (neighbor, _) :: rest =>
      if (visited !!! neighbor : bool) then visit_neighbors rest visited q
      else visit_neighbors rest (<[neighbor := true]> visited) (q ++ [neighbor])
  end.

(** The [while (!q.empty())] loop; [out] collects the handles in the order
    "Delivering to: ..." is printed. *)
Fixpoint bfs_loop (fuel : nat) (adj : list (list (nat * Z)))
  (visited : list bool) (q : list nat) (out : list nat) : option (list nat) :=
  match fuel with
  | 0 => None
  | S fuel' =>
      match q with
      | [] => Some out
      | curr :: q' =>
          let '(visited', q'') := visit_neighbors (adj !!! curr) visited q' in
          bfs_loop fuel' adj visited' q'' (out ++ [curr])
      end
  end.

(** The handles in delivery order. *)
Definition bfs_order (fuel : nat) (g : DeliveryPathOptimizer) (src : nat)
  : option (list nat) :=
  let visited := <[src := true]> (replicate (locationCount g) false) in
  bfs_loop fuel (adjList g) visited [src] [].

Inductive route_result : Type :=
| RouteStartNotFound                   (* "Starting location not found." *)
| Deliveries (names : list string).

Definition simulateDelivery (fuel : nat) (g : DeliveryPathOptimizer) (start : string)
  : option route_result :=
  match locationToIndex g !! start with
  | None => Some RouteStartNotFound
  | Some src =>
      order ← bfs_order fuel g src;
      Some (Deliveries ((λ h, indexToLocation g !!! h) <$> order))
  end.

(** ** Sequences of mutations *)

Inductive mutation : Type :=
| AddLocation (name : string)
| RemoveLocation (name : string)
| AddRoute (from to : string) (cost : Z)
| RemoveRoute (from to : string).

Definition apply_mutation (m : mutation) (g : DeliveryPathOptimizer)
  : DeliveryPathOptimizer * outcome :=
  match m with
  | AddLocation name => addLocation name g
  | RemoveLocation name => removeLocation name g
  | AddRoute from to cost => addRoute from to cost g
  | RemoveRoute from to => removeRoute from to g
  end.

(** The state after the calls of [ms], in order, on [g]. *)
Definition run_mutations (ms : list mutation) (g : DeliveryPathOptimizer)
  : DeliveryPathOptimizer :=
  foldl (λ g m, (apply_mutation m g).1) g ms.

(** The fixed graph of the shortest-path example: A-B 1, B-C 2, A-C 5. *)
Definition example_mutations : list mutation :=
  [AddLocation "A"; AddLocation "B"; AddLocation "C";
   AddRoute "A" "B" 1; AddRoute "B" "C" 2; AddRoute "A" "C" 5].

Definition example_graph : DeliveryPathOptimizer :=
  run_mutations example_mutations empty_dpo.

(** ** Well-formed states *)

(** The adjacency row of handle [u]; a handle beyond the vector has no row. *)
Definition row (adj : list (list (nat * Z))) (u : nat) : list (nat * Z) :=
  adj !!! u.

(** How many times the entry [(v, c)] occurs in the row of [u]. *)
Definition edge_count (adj : list (list (nat * Z))) (u v : nat) (c : Z) : nat :=
  length (filter (λ p, p = (v, c)) (row adj u)).

Definition symmetric_adj (adj : list (list (nat * Z))) : Prop :=
  ∀ u v c, edge_count adj u v c = edge_count adj v u c.

Definition targets_below (n : nat) (adj : list (list (nat * Z))) : Prop :=
  ∀ u p, p ∈ row adj u → p.1 < n.

Record graph_inv (g : DeliveryPathOptimizer) : Prop := mk_graph_inv {
  inv_names_length : length (indexToLocation g) = locationCount g;
  inv_adj_length : length (adjList g) = locationCount g;
  inv_index : ∀ name h,
    locationToIndex g !! name = Some h ↔ indexToLocation g !! h = Some name;
  inv_targets : targets_below (locationCount g) (adjList g);
  inv_symmetric : symmetric_adj (adjList g)
}.

(** The handle that [idx]'s removal gives to the old handle [h ≠ idx]. *)
Definition shift_handle (idx h : nat) : nat :=
  if bool_decide (idx < h) then pred h else h.

(** The old handle of the new handle [h']. *)
Definition unshift_handle (idx h' : nat) : nat :=
  if bool_decide (h' < idx) then h' else S h'.


(** ** The menu of [main]: one command, the new state and what is printed *)

Inductive command : Type :=
| Mutate (m : mutation)
| OptimizeDeliveryPlan (start : string)
| SimulateDelivery (start : string).

Inductive printed : Type :=
| Line (o : outcome)
| PlanLines (r : option plan_result)
| RouteLines (r : option route_result).

Definition execute (fuel : nat) (c : command) (g : DeliveryPathOptimizer)
  : DeliveryPathOptimizer * printed :=
  match c with
  | Mutate m => let '(g', o) := apply_mutation m g in (g', Line o)
  | OptimizeDeliveryPlan start => (g, PlanLines (optimizeDeliveryPlan fuel g start))
  | SimulateDelivery start => (g, RouteLines (simulateDelivery fuel g start))
  end.

(** The printed line is one of the error messages. *)
Definition reports_error (p : printed) : bool :=
  match p with
  | Line LocationAlreadyExists | Line LocationNotFound | Line EndpointsNotFound => true
  | PlanLines (Some PlanStartNotFound) => true
  | RouteLines (Some RouteStartNotFound) => true
  | _ => false
  end.

(** ** Routes, components and path costs *)

(** A route leaves [u] for [v]. *)
Definition edge (adj : list (list (nat * Z))) (u v : nat) : Prop :=
  ∃ c, (v, c) ∈ row adj u.

(** [v] is in the component of [u]: a chain of routes leads from [u] to [v]. *)
Definition connected (adj : list (list (nat * Z))) : relation nat :=
  rtc (edge adj).

(** The first occurrence of every element, in order. *)
Fixpoint keep_first (l : list nat) : list nat :=
  match l with
  | [] => []
  | x :: rest => x :: filter (λ y, y ≠ x) (keep_first rest)
  end.

(** The neighbours a row holds that are not yet marked, each once, in the
    order of the row. *)
Definition unvisited_neighbors (edges : list (nat * Z)) (visited : list bool) : list nat :=
  keep_first (filter (λ v, visited !!! v = false) (edges.*1)).

(** A chain of routes from [src] to a vertex, with the sum of its costs. *)
Inductive walk (adj : list (list (nat * Z))) (src : nat) : nat → Z → Prop :=
| walk_here : walk adj src src 0%Z
| walk_step u v c k :
    walk adj src u c → (v, k) ∈ row adj u → walk adj src v (c + k)%Z.

(** [d] is the least cost of a chain of routes from [src] to [v]. *)
Definition min_cost (adj : list (list (nat * Z))) (src v : nat) (d : Z) : Prop :=
  walk adj src v d ∧ ∀ c, walk adj src v c → (d ≤ c)%Z.

Definition nonneg_costs (adj : list (list (nat * Z))) : Prop :=
  Forall (Forall (λ p : nat * Z, (0 ≤ p.2)%Z)) adj.

(** The least cost to a location plus the cost of a route that leaves it
    stays below [INT_MAX]: the sums the relaxation forms neither overflow
    nor reach the value that stands for "no path". *)
Definition costs_fit (adj : list (list (nat * Z))) (src : nat) : Prop :=
  ∀ u d p, min_cost adj src u d → p ∈ row adj u → (d + p.2 < INT_MAX)%Z.

(** The distance array holds the least cost of every location that has a
    path from [src], and [INT_MAX] for the others. *)
Definition distances_exact (adj : list (list (nat * Z))) (src : nat) (n : nat)
  (final : list Z) : Prop :=
  ∀ v, v < n →
    (∀ d, min_cost adj src v d → final !!! v = d)
    ∧ (¬ connected adj src v → final !!! v = INT_MAX).

(** ** The priority queue, whatever the layout of its heap *)

(** [top] is a least entry of [pq] and [pq'] holds the others: what
    [pq.top()] and [pq.pop()] guarantee. *)
Definition pq_top_pop (pq : list entry) (top : entry) (pq' : list entry) : Prop :=
  pq ≡ₚ top :: pq' ∧ Forall (λ e, entry_ltb e top = false) pq'.

(** The runs of the [while] loop of [optimizeDeliveryPlan] over such a queue. *)
Inductive dijkstra_run (adj : list (list (nat * Z)))
  : list Z → list entry → list Z → Prop :=
| run_empty dist :
    dijkstra_run adj dist [] dist
| run_skip dist pq d u pq' final :
    pq_top_pop pq (d, u) pq' →
    (dist !!! u < d)%Z →
    dijkstra_run adj dist pq' final →
    dijkstra_run adj dist pq final
| run_relax dist pq d u pq' dist' pq'' final :
    pq_top_pop pq (d, u) pq' →
    ¬ (dist !!! u < d)%Z →
    relax u (adj !!! u) dist pq' = (dist', pq'') →
    dijkstra_run adj dist' pq'' final →
    dijkstra_run adj dist pq final.

(** The runs of [optimizeDeliveryPlan]. *)
Inductive plan_run (g : DeliveryPathOptimizer) (start : string) : plan_result → Prop :=
| plan_run_not_found :
    locationToIndex g !! start = None →
    plan_run g start PlanStartNotFound
| plan_run_found src final :
    locationToIndex g !! start = Some src →
    dijkstra_run (adjList g)
      (<[src := 0%Z]> (replicate (locationCount g) INT_MAX)) (pq_push (0%Z, src) []) final →
    plan_run g start (Plan (report (indexToLocation g) final (locationCount g))).

(** ** Loop invariants *)

(** The state of the loop of [simulateDelivery]: [out] has been delivered,
    [q] is waiting. *)
Record bfs_inv (adj : list (list (nat * Z))) (n src : nat)
  (visited : list bool) (q out : list nat) : Prop := mk_bfs_inv {
  bi_length : length visited = n;
  bi_nodup : NoDup (out ++ q);
  bi_marked : ∀ v, v < n → (visited !!! v = true ↔ v ∈ out ++ q);
  bi_connected : ∀ v, v ∈ out ++ q → connected adj src v;
  bi_source : src ∈ out ++ q;
  bi_closed : ∀ u v, u ∈ out → edge adj u v → v ∈ out ++ q;
  bi_below : ∀ v, v ∈ out ++ q → v < n
}.

(** The values of an [int]. *)
Definition in_int_range (z : Z) : Prop := (-2147483648 ≤ z ≤ INT_MAX)%Z.

(** The distance array, measured from the least [int]: every relaxation
    lowers it. *)
Definition weight (dist : list Z) : nat :=
  sum_list_with (λ z, Z.to_nat (z + 2147483648)) dist.

(** Whatever the costs: only locations of the component of the source get a
    distance or an entry of the queue. *)
Record reach_inv (adj : list (list (nat * Z))) (n src : nat)
  (dist : list Z) (pq : list entry) : Prop := mk_reach_inv {
  ri_length : length dist = n;
  ri_range : Forall in_int_range dist;
  ri_dist : ∀ v, v < n → dist !!! v = INT_MAX ∨ connected adj src v;
  ri_queue : ∀ e, e ∈ pq → connected adj src e.2
}.

(** Every route that leaves [u] is relaxed. *)
Definition closed (adj : list (list (nat * Z))) (dist : list Z) (u : nat) : Prop :=
  ∀ p, p ∈ row adj u → (dist !!! p.1 ≤ dist !!! u + p.2)%Z.

(** With costs that are not negative and fit: a distance is the cost of a
    path, an entry of the queue is not below the distance of its location,
    and a location with a distance is in the queue with that distance or has
    its routes relaxed. *)
Record dij_inv (adj : list (list (nat * Z))) (n src : nat)
  (dist : list Z) (pq : list entry) : Prop := mk_dij_inv {
  di_length : length dist = n;
  di_walk : ∀ v, v < n →
    dist !!! v = INT_MAX ∨ (walk adj src v (dist !!! v) ∧ (dist !!! v < INT_MAX)%Z);
  di_queue : ∀ e, e ∈ pq → e.2 < n ∧ (dist !!! e.2 ≤ e.1)%Z ∧ (e.1 < INT_MAX)%Z;
  di_pending : ∀ u, u < n → (dist !!! u < INT_MAX)%Z →
    (dist !!! u, u) ∈ pq ∨ closed adj dist u;
  di_source : dist !!! src = 0%Z
}.

(** The same inside the loop over the row of [u], whose least cost is [du]:
    the routes of [done] are relaxed, the others of [u] are still to come. *)
Record relax_inv (adj : list (list (nat * Z))) (n src u : nat) (du : Z)
  (dist : list Z) (pq : list entry) (done : list (nat * Z)) : Prop := mk_relax_inv {
  xi_length : length dist = n;
  xi_walk : ∀ v, v < n →
    dist !!! v = INT_MAX ∨ (walk adj src v (dist !!! v) ∧ (dist !!! v < INT_MAX)%Z);
  xi_queue : ∀ e, e ∈ pq → e.2 < n ∧ (dist !!! e.2 ≤ e.1)%Z ∧ (e.1 < INT_MAX)%Z;
  xi_pending : ∀ u', u' < n → (dist !!! u' < INT_MAX)%Z →
    (dist !!! u', u') ∈ pq ∨ closed adj dist u' ∨ u' = u;
  xi_source : dist !!! src = 0%Z;
  xi_current : dist !!! u = du;
  xi_done : ∀ p, p ∈ done → (dist !!! p.1 ≤ du + p.2)%Z
}.

(** ** Graphs of the examples *)

(** A route whose cost is [INT_MAX] and one more route behind it. *)
Definition far_mutations : list mutation :=
  [AddLocation "A"; AddLocation "B"; AddLocation "C";
   AddRoute "A" "B" 2147483647; AddRoute "B" "C" 1].

Definition far_graph : DeliveryPathOptimizer :=
  run_mutations far_mutations empty_dpo.

(** ** Names of the plan, hops of the traversal *)

(** The location a line of the plan is about. *)
Definition line_name (l : plan_line) : string :=
  match l with
  | Unreachable name => name
  | Eta name _ _ => name
  end.

(** No entry of the row targets [v]. *)
Definition no_entry_for (v : nat) (neighbors : list (nat * Z)) : Prop :=
  Forall (λ p : nat * Z, p.1 ≠ v) neighbors.

(** A chain of [k] routes leads from [src] to the vertex. *)
Inductive hops (adj : list (list (nat * Z))) (src : nat) : nat → nat → Prop :=
| hops_here : hops adj src src 0
| hops_step u v k : hops adj src u k → edge adj u v → hops adj src v (S k).

(** [k] is the least number of routes from [src] to [v]. *)
Definition min_hops (adj : list (list (nat * Z))) (src v k : nat) : Prop :=
  hops adj src v k ∧ ∀ k', hops adj src v k' → k ≤ k'.

(** [u] is not farther from [src] than [v], counted in routes. *)
Definition level_le (adj : list (list (nat * Z))) (src u v : nat) : Prop :=
  ∀ ku kv, min_hops adj src u ku → min_hops adj src v kv → ku ≤ kv.

(** The loop of [simulateDelivery] works level by level: the delivered and
    the waiting locations are in the order of their number of hops, and a
    waiting location is at most one hop beyond the head of the queue. *)
Record bfs_levels (adj : list (list (nat * Z))) (src : nat)
  (q out : list nat) : Prop := mk_bfs_levels {
  bl_min : ∀ x, x ∈ out ++ q → ∃ k, min_hops adj src x k;
  bl_sorted : StronglySorted (level_le adj src) (out ++ q);
  bl_front : ∀ c x kc kx,
    head q = Some c → x ∈ q →
    min_hops adj src c kc → min_hops adj src x kx → kx ≤ S kc
}.

(** ** The order of the deliveries *)

(** The first occurrence of [x] in [l] is at index [i]. *)
Definition first_at (l : list nat) (i x : nat) : Prop :=
  l !! i = Some x ∧ ∀ j, j < i → l !! j ≠ Some x.

(** The delivery number [p] of [order] is the first one with a route to
    [v]: [v] is found while the row of that location is visited. *)
Definition discovered_at (adj : list (list (nat * Z))) (order : list nat)
  (p v : nat) : Prop :=
  (∃ u, order !! p = Some u ∧ edge adj u v)
  ∧ ∀ j u', j < p → order !! j = Some u' → ¬ edge adj u' v.

(** The order in which two locations other than the source enter the
    queue: the one found from the earlier delivery first and, when both are
    found from the same delivery, the one that comes first in its row. *)
Definition enqueued_before (adj : list (list (nat * Z))) (src : nat)
  (order : list nat) (v w : nat) : Prop :=
  v ≠ src → w ≠ src →
  ∀ pv pw, discovered_at adj order pv v → discovered_at adj order pw w →
    pv < pw
    ∨ (pv = pw
       ∧ ∀ u a b, order !! pv = Some u →
           first_at ((row adj u).*1) a v → first_at ((row adj u).*1) b w → a < b).

(** The loop of [simulateDelivery] keeps the delivered and the waiting
    locations in that order, each found from an earlier delivery. *)
Record bfs_discovery (adj : list (list (nat * Z))) (src : nat)
  (q out : list nat) : Prop := mk_bfs_discovery {
  bd_found : ∀ i x, (out ++ q) !! i = Some x → x ≠ src →
    ∃ p, discovered_at adj out p x ∧ p < i;
  bd_sorted : StronglySorted (enqueued_before adj src out) (out ++ q)
}.

(** ** Examples *)

Example example_graph_adj :
  adjList example_graph = [[(1, 1%Z); (2, 5%Z)]; [(0, 1%Z); (2, 2%Z)]; [(1, 2%Z); (0, 5%Z)]].
Proof. vm_compute. reflexivity. Qed.

Example example_plan :
  optimizeDeliveryPlan 10 example_graph "A"
  = Some (Plan [Eta "A" 0 0; Eta "B" 1 5; Eta "C" 3 15]).
Proof. vm_compute. reflexivity. Qed.

Example example_bfs :
  simulateDelivery 10 example_graph "A" = Some (Deliveries ["A"; "B"; "C"]).
Proof. vm_compute. reflexivity. Qed.


(** ** Rows, counts and renamed handles *)

Section list_facts.

Lemma row_nil u : row [] u = [].
Proof. unfold row. by rewrite lookup_total_nil. Qed.

Lemma row_ge adj u : length adj ≤ u → row adj u = [].
Proof.
  intros Hu. unfold row. rewrite list_lookup_total_alt.
  by rewrite (lookup_ge_None_2 adj u Hu).
Qed.

Lemma row_lookup adj u r : adj !! u = Some r → row adj u = r.
Proof. intros H. by apply list_lookup_total_correct. Qed.

Lemma row_app_nil adj u : row (adj ++ [[]]) u = row adj u.
Proof.
  destruct (decide (u < length adj)) as [Hu|Hu].
  - unfold row. by rewrite lookup_total_app_l.
  - rewrite (row_ge adj u) by lia. unfold row.
    rewrite lookup_total_app_r by lia.
    destruct (u - length adj) as [|k]; [done|].
    simpl. by rewrite lookup_total_nil.
Qed.

Lemma row_alter f adj i u :
  row (alter f i adj) u = if decide (i = u ∧ i < length adj) then f (row adj i) else row adj u.
Proof. unfold row. apply list_lookup_total_alter. Qed.

Lemma count_app (P : nat * Z → Prop) `{!∀ p, Decision (P p)} l1 l2 :
  length (filter P (l1 ++ l2)) = length (filter P l1) + length (filter P l2).
Proof. by rewrite filter_app, length_app. Qed.

Lemma count_singleton (v w : nat) (c k : Z) :
  length (filter (λ p, p = (v, c)) [(w, k)]) = if decide (w = v ∧ k = c) then 1 else 0.
Proof.
  rewrite filter_cons. simpl.
  destruct (decide ((w, k) = (v, c))) as [Heq|Hne];
    destruct (decide (w = v ∧ k = c)) as [[? ?]|Hn]; try done.
  - destruct Hn. by simplify_eq.
  - destruct Hne. congruence.
Qed.

Lemma count_erased (v w : nat) (c : Z) (l : list (nat * Z)) :
  length (filter (λ p, p = (v, c)) (filter (λ p, p.1 ≠ w) l))
  = if decide (v = w) then 0 else length (filter (λ p, p = (v, c)) l).
Proof.
  induction l as [|[t k] l IH]; [by case_decide|].
  rewrite (filter_cons (λ p, p.1 ≠ w)). simpl.
  rewrite (filter_cons (λ p, p = (v, c)) (t, k) l).
  destruct (decide (t ≠ w)) as [Ht|Ht].
  - rewrite filter_cons.
    destruct (decide ((t, k) = (v, c))) as [Heq|Hne]; simpl; rewrite IH.
    + simplify_eq. case_decide; [congruence|done].
    + done.
  - rewrite IH. apply dec_stable in Ht. subst t.
    destruct (decide ((w, k) = (v, c))) as [Heq|Hne]; [|done].
    simplify_eq. case_decide; [done|congruence].
Qed.

Lemma shift_unshift idx h' : shift_handle idx (unshift_handle idx h') = h'.
Proof.
  unfold shift_handle, unshift_handle.
  repeat case_bool_decide; lia.
Qed.

Lemma unshift_ne idx h' : unshift_handle idx h' ≠ idx.
Proof. unfold unshift_handle. case_bool_decide; lia. Qed.

Lemma unshift_shift idx h : h ≠ idx → unshift_handle idx (shift_handle idx h) = h.
Proof.
  unfold shift_handle, unshift_handle.
  repeat case_bool_decide; lia.
Qed.

Lemma shift_entry_eq idx p : shift_entry idx p = (shift_handle idx p.1, p.2).
Proof.
  unfold shift_entry, shift_handle. destruct p as [t k]. simpl.
  by case_bool_decide.
Qed.

(** Compaction renames the targets: the entries [(v', c)] of the compacted
    row are the entries [(unshift v', c)] of the old one. *)
Lemma count_compact idx (v' : nat) (c : Z) (l : list (nat * Z)) :
  length (filter (λ p, p = (v', c)) (compact_row idx l))
  = length (filter (λ p, p = (unshift_handle idx v', c)) l).
Proof.
  unfold compact_row.
  induction l as [|[t k] l IH]; [done|].
  rewrite (filter_cons (λ p, p.1 ≠ idx)). simpl.
  rewrite (filter_cons (λ p, p = (unshift_handle idx v', c)) (t, k) l).
  destruct (decide (t ≠ idx)) as [Ht|Ht].
  - rewrite fmap_cons, filter_cons, shift_entry_eq. simpl.
    destruct (decide ((shift_handle idx t, k) = (v', c))) as [Heq|Hne];
      destruct (decide ((t, k) = (unshift_handle idx v', c))) as [Heq'|Hne'];
      simpl; rewrite IH; try done.
    + destruct Hne'. simplify_eq. by rewrite unshift_shift.
    + destruct Hne. simplify_eq. by rewrite shift_unshift.
  - rewrite IH. apply dec_stable in Ht. subst t.
    destruct (decide ((idx, k) = (unshift_handle idx v', c))) as [Heq|Hne]; [|done].
    simplify_eq. by destruct (unshift_ne idx v').
Qed.

Lemma row_compact idx adj u' :
  row (compact_row idx <$> delete idx adj) u'
  = compact_row idx (row adj (unshift_handle idx u')).
Proof.
  unfold row. rewrite !list_lookup_total_alt, list_lookup_fmap, list_lookup_delete.
  unfold unshift_handle.
  replace (if decide (u' < idx) then u' else S u')
    with (if bool_decide (u' < idx) then u' else S u')
    by (destruct (decide (u' < idx));
        [by rewrite bool_decide_eq_true_2|by rewrite bool_decide_eq_false_2]).
  by destruct (adj !! _).
Qed.

Lemma elem_of_compact idx p (l : list (nat * Z)) :
  p ∈ compact_row idx l ↔ ∃ q, q ∈ l ∧ q.1 ≠ idx ∧ p = shift_entry idx q.
Proof.
  unfold compact_row. rewrite list_elem_of_fmap.
  setoid_rewrite list_elem_of_filter. split.
  - intros (q & -> & Hne & Hq). by exists q.
  - intros (q & Hq & Hne & ->). by exists q.
Qed.

End list_facts.

(** ** The mutations keep the state well formed *)

Section invariant.

Lemma rebuild_index_lookup names : ∀ i m name h,
  NoDup names →
  (rebuild_index i names m !! name = Some h
   ↔ (∃ j, names !! j = Some name ∧ h = i + j) ∨ ((name ∉ names) ∧ m !! name = Some h)).
Proof.
  induction names as [|x rest IH]; intros i m name h Hnd; simpl.
  - split; [intros H; right; split; [apply not_elem_of_nil|done]|].
    intros [(j & Hj & _)|[_ H]]; [by rewrite lookup_nil in Hj|done].
  - apply NoDup_cons in Hnd as [Hx Hnd]. rewrite (IH (S i) _ name h Hnd).
    destruct (decide (name = x)) as [->|Hne].
    + rewrite lookup_insert_eq. split.
      * intros [(j & Hj & _)|[_ H]].
        -- destruct Hx. by eapply list_elem_of_lookup_2.
        -- left. exists 0. split; [done|]. simplify_eq. lia.
      * intros [(j & Hj & Hh)|[Hn _]].
        -- destruct j as [|j]; simpl in Hj.
           ++ right. split; [done|]. f_equal. lia.
           ++ destruct Hx. by eapply list_elem_of_lookup_2.
        -- destruct Hn. apply list_elem_of_here.
    + rewrite lookup_insert_ne by done. split.
      * intros [(j & Hj & Hh)|[Hn H]].
        -- left. exists (S j). split; [done|lia].
        -- right. split; [|done]. rewrite not_elem_of_cons. done.
      * intros [(j & Hj & Hh)|[Hn H]].
        -- destruct j as [|j]; simpl in Hj; [congruence|].
           left. exists j. split; [done|lia].
        -- right. apply not_elem_of_cons in Hn as [_ Hn]. done.
Qed.

Lemma rebuild_index_spec names name h :
  NoDup names →
  rebuild_index 0 names ∅ !! name = Some h ↔ names !! h = Some name.
Proof.
  intros Hnd. rewrite rebuild_index_lookup by done. split.
  - intros [(j & Hj & ->)|[_ H]]; [done|by rewrite lookup_empty in H].
  - intros H. left. by exists h.
Qed.

Lemma inv_names_NoDup g : graph_inv g → NoDup (indexToLocation g).
Proof.
  intros Hg. apply NoDup_alt. intros i j name Hi Hj.
  apply (inv_index g Hg) in Hi, Hj. congruence.
Qed.

Lemma inv_handle_lt g name h :
  graph_inv g → locationToIndex g !! name = Some h → h < locationCount g.
Proof.
  intros Hg Hh. apply (inv_index g Hg) in Hh.
  rewrite <- (inv_names_length g Hg). by eapply lookup_lt_Some.
Qed.

Lemma empty_inv : graph_inv empty_dpo.
Proof.
  split; simpl; try done.
  intros u p. rewrite row_nil. by intros ?%not_elem_of_nil.
Qed.

Lemma addLocation_inv name g : graph_inv g → graph_inv (addLocation name g).1.
Proof.
  intros Hg. unfold addLocation, has_location.
  case_bool_decide as Hpresent; [done|].
  apply eq_None_not_Some in Hpresent.
  pose proof (inv_names_length g Hg) as Hlen.
  split; simpl.
  - rewrite length_app. simpl. lia.
  - rewrite length_app. simpl. rewrite (inv_adj_length g Hg). lia.
  - intros name' h. destruct (decide (name' = name)) as [->|Hne].
    + rewrite lookup_insert_eq. split.
      * intros [= <-]. rewrite lookup_app_r by lia.
        by rewrite Hlen, Nat.sub_diag.
      * intros Hh. destruct (decide (h < length (indexToLocation g))) as [Hlt|Hge].
        -- rewrite lookup_app_l in Hh by done.
           apply (inv_index g Hg) in Hh. congruence.
        -- apply lookup_lt_Some in Hh as Hb. rewrite length_app in Hb. simpl in Hb.
           f_equal. lia.
    + rewrite lookup_insert_ne by done. rewrite (inv_index g Hg). split.
      * intros Hh. by apply lookup_app_l_Some.
      * intros Hh. apply lookup_app_Some in Hh as [Hh|[_ Hh]]; [done|].
        apply list_lookup_singleton_Some in Hh as [_ ?]. congruence.
  - intros u p. rewrite row_app_nil. intros Hp.
    pose proof (inv_targets g Hg u p Hp). lia.
  - intros u v c. unfold edge_count. rewrite !row_app_nil. apply (inv_symmetric g Hg).
Qed.

Lemma removeLocation_inv name g : graph_inv g → graph_inv (removeLocation name g).1.
Proof.
  intros Hg. unfold removeLocation.
  destruct (locationToIndex g !! name) as [idx|] eqn:Hidx; [|done].
  pose proof (inv_handle_lt g name idx Hg Hidx) as Hlt.
  pose proof (inv_names_NoDup g Hg) as Hnd.
  assert (NoDup (delete idx (indexToLocation g))) as Hnd'.
  { eapply sublist_NoDup; [done|apply sublist_delete]. }
  split; simpl.
  - rewrite length_delete; [rewrite (inv_names_length g Hg); lia|].
    apply lookup_lt_is_Some. rewrite (inv_names_length g Hg). done.
  - rewrite length_fmap, length_delete; [rewrite (inv_adj_length g Hg); lia|].
    apply lookup_lt_is_Some. rewrite (inv_adj_length g Hg). done.
  - intros name' h. by apply rebuild_index_spec.
  - intros u p. rewrite row_compact, elem_of_compact.
    intros (q & Hq & Hne & ->). apply (inv_targets g Hg) in Hq.
    rewrite shift_entry_eq. simpl. unfold shift_handle. case_bool_decide; lia.
  - intros u v c. unfold edge_count. rewrite !row_compact, !count_compact.
    apply (inv_symmetric g Hg).
Qed.

Lemma addRoute_inv from to cost g : graph_inv g → graph_inv (addRoute from to cost g).1.
Proof.
  intros Hg. unfold addRoute.
  destruct (locationToIndex g !! from) as [u|] eqn:Hu; [|done].
  destruct (locationToIndex g !! to) as [v|] eqn:Hv; [|done].
  pose proof (inv_handle_lt g from u Hg Hu) as Hult.
  pose proof (inv_handle_lt g to v Hg Hv) as Hvlt.
  pose proof (inv_adj_length g Hg) as Hlen.
  split; simpl; try apply Hg.
  - unfold push_edge. by rewrite !length_alter.
  - intros a p. unfold push_edge. rewrite !row_alter, !length_alter.
    intros Hp.
    repeat case_decide; rewrite ?elem_of_app, ?list_elem_of_singleton in Hp;
      destruct_or?; subst; simpl; try done; by eapply (inv_targets g Hg).
  - intros a b c. unfold edge_count, push_edge.
    rewrite !row_alter, !length_alter.
    pose proof (inv_symmetric g Hg a b c) as Hs. unfold edge_count in Hs.
    repeat case_decide; rewrite ?count_app, ?count_singleton;
      repeat case_decide; destruct_and?; subst; try lia.
Qed.

Lemma removeRoute_inv from to g : graph_inv g → graph_inv (removeRoute from to g).1.
Proof.
  intros Hg. unfold removeRoute.
  destruct (locationToIndex g !! from) as [u|] eqn:Hu; [|done].
  destruct (locationToIndex g !! to) as [v|] eqn:Hv; [|done].
  pose proof (inv_handle_lt g from u Hg Hu) as Hult.
  pose proof (inv_handle_lt g to v Hg Hv) as Hvlt.
  pose proof (inv_adj_length g Hg) as Hlen.
  split; simpl; try apply Hg.
  - unfold erase_edges. by rewrite !length_alter.
  - intros a p. unfold erase_edges. rewrite !row_alter, !length_alter.
    intros Hp.
    repeat case_decide; rewrite ?list_elem_of_filter in Hp;
      destruct_and?; by eapply (inv_targets g Hg).
  - intros a b c. unfold edge_count, erase_edges.
    rewrite !row_alter, !length_alter.
    pose proof (inv_symmetric g Hg a b c) as Hs. unfold edge_count in Hs.
    repeat case_decide; rewrite ?count_erased;
      repeat case_decide; destruct_and?; subst; try lia.
Qed.

Lemma apply_mutation_inv m g : graph_inv g → graph_inv (apply_mutation m g).1.
Proof.
  destruct m; simpl;
    auto using addLocation_inv, removeLocation_inv, addRoute_inv, removeRoute_inv.
Qed.

Lemma run_mutations_inv ms : ∀ g, graph_inv g → graph_inv (run_mutations ms g).
Proof.
  induction ms as [|m ms IH]; intros g Hg; [done|].
  apply IH. by apply apply_mutation_inv.
Qed.

End invariant.

(** ** Handles after the mutations *)

Section mutations.

Lemma removeLocation_handles name k g :
  graph_inv g →
  locationToIndex g !! name = Some k →
  ∀ other h',
    locationToIndex (removeLocation name g).1 !! other = Some h'
    ↔ locationToIndex g !! other = Some (unshift_handle k h').
Proof.
  intros Hg Hk other h'. unfold removeLocation. rewrite Hk. simpl.
  rewrite rebuild_index_spec.
  - rewrite list_lookup_delete, (inv_index g Hg). unfold unshift_handle.
    destruct (decide (h' < k));
      [by rewrite bool_decide_eq_true_2|by rewrite bool_decide_eq_false_2].
  - eapply sublist_NoDup; [by apply inv_names_NoDup|apply sublist_delete].
Qed.

Lemma addRoute_row from to cost g u v a :
  graph_inv g →
  locationToIndex g !! from = Some u →
  locationToIndex g !! to = Some v →
  row (adjList (addRoute from to cost g).1) a
  = row (adjList g) a
      ++ (if decide (a = u) then [(v, cost)] else [])
      ++ (if decide (a = v) then [(u, cost)] else []).
Proof.
  intros Hg Hu Hv. unfold addRoute. rewrite Hu, Hv. simpl.
  pose proof (inv_handle_lt g from u Hg Hu) as Hult.
  pose proof (inv_handle_lt g to v Hg Hv) as Hvlt.
  pose proof (inv_adj_length g Hg) as Hlen.
  unfold push_edge. rewrite !row_alter, !length_alter.
  repeat case_decide; destruct_and?; subst; simpl;
    rewrite <- ?app_assoc, ?app_nil_r; try done; lia.
Qed.

Lemma removeRoute_row from to g u v a :
  graph_inv g →
  locationToIndex g !! from = Some u →
  locationToIndex g !! to = Some v →
  ∀ p, p ∈ row (adjList (removeRoute from to g).1) a
       ↔ p ∈ row (adjList g) a ∧ ¬ (a = u ∧ p.1 = v) ∧ ¬ (a = v ∧ p.1 = u).
Proof.
  intros Hg Hu Hv p. unfold removeRoute. rewrite Hu, Hv. simpl.
  pose proof (inv_handle_lt g from u Hg Hu) as Hult.
  pose proof (inv_handle_lt g to v Hg Hv) as Hvlt.
  pose proof (inv_adj_length g Hg) as Hlen.
  unfold erase_edges. rewrite !row_alter, !length_alter.
  repeat case_decide; rewrite ?list_elem_of_filter; intuition (subst; lia || auto).
Qed.

End mutations.

(** ** Properties of the mutations *)

(** C2. After any sequence of addLocation, removeLocation, addRoute and
    removeRoute calls on a new optimizer, the name-to-handle map and the
    handle-to-name list are inverse to each other, and the handles in use are
    exactly the numbers below the location count. *)
Theorem bijection_invariant (ms : list mutation) :
  let g := run_mutations ms empty_dpo in
  (∀ name h, locationToIndex g !! name = Some h → indexToLocation g !! h = Some name)
  ∧ (∀ h name, indexToLocation g !! h = Some name → locationToIndex g !! name = Some h)
  ∧ (∀ h, h < locationCount g ↔ ∃ name, locationToIndex g !! name = Some h)
  ∧ length (indexToLocation g) = locationCount g.
Proof.
  intros g.
  assert (graph_inv g) as Hg by (apply run_mutations_inv, empty_inv).
  split_and!.
  - intros name h. apply (inv_index g Hg).
  - intros h name. apply (inv_index g Hg).
  - intros h. split.
    + intros Hh. rewrite <- (inv_names_length g Hg) in Hh.
      apply lookup_lt_is_Some in Hh as [name Hname].
      exists name. by apply (inv_index g Hg).
    + intros [name Hname]. by eapply inv_handle_lt.
  - apply (inv_names_length g Hg).
Qed.

(** C3. After any sequence of mutations, the entries for [v] with cost [c]
    in the row of [u] are as many as the entries for [u] with cost [c] in the
    row of [v]. *)
Theorem symmetry_invariant (ms : list mutation) (u v : nat) (c : Z) :
  edge_count (adjList (run_mutations ms empty_dpo)) u v c
  = edge_count (adjList (run_mutations ms empty_dpo)) v u c.
Proof.
  apply inv_symmetric, run_mutations_inv, empty_inv.
Qed.

(** C4. Removing the location with handle [k] from a graph of [n] locations
    leaves [n - 1] locations; a location whose handle was above [k] has its
    handle decremented, one whose handle was below [k] keeps it, the removed
    name has no handle, every adjacency entry targets a location that is
    still there, and the entries left are the old entries between the
    remaining locations under their new handles. *)
Theorem removal_compaction (ms : list mutation) (name : string) (k : nat) :
  let g := run_mutations ms empty_dpo in
  let g' := (removeLocation name g).1 in
  locationToIndex g !! name = Some k →
  0 < locationCount g
  ∧ locationCount g' = locationCount g - 1
  ∧ length (indexToLocation g') = locationCount g - 1
  ∧ length (adjList g') = locationCount g - 1
  ∧ (∀ other h, locationToIndex g !! other = Some h → k < h →
       locationToIndex g' !! other = Some (h - 1))
  ∧ (∀ other h, locationToIndex g !! other = Some h → h < k →
       locationToIndex g' !! other = Some h)
  ∧ locationToIndex g' !! name = None
  ∧ (∀ u p, p ∈ row (adjList g') u →
       ∃ other, other ≠ name ∧ locationToIndex g' !! other = Some p.1)
  ∧ (∀ u' v' c,
       edge_count (adjList g') u' v' c
       = edge_count (adjList g) (unshift_handle k u') (unshift_handle k v') c).
Proof.
  intros g g' Hk.
  assert (graph_inv g) as Hg by (apply run_mutations_inv, empty_inv).
  assert (graph_inv g') as Hg' by (by apply removeLocation_inv).
  pose proof (inv_handle_lt g name k Hg Hk) as Hlt.
  pose proof (removeLocation_handles name k g Hg Hk) as Hmap. fold g' in Hmap.
  assert (locationCount g' = locationCount g - 1) as Hcount.
  { unfold g', removeLocation. rewrite Hk. simpl. lia. }
  assert (locationToIndex g' !! name = None) as Hgone.
  { apply eq_None_not_Some. intros [h' Hh']. apply Hmap in Hh'.
    rewrite Hk in Hh'. injection Hh' as Hh'. by destruct (unshift_ne k h'). }
  split_and!; try done.
  - lia.
  - by rewrite (inv_names_length g' Hg').
  - by rewrite (inv_adj_length g' Hg').
  - intros other h Hh Hkh. apply Hmap. rewrite Hh. f_equal.
    unfold unshift_handle. case_bool_decide; lia.
  - intros other h Hh Hkh. apply Hmap. rewrite Hh. f_equal.
    unfold unshift_handle. case_bool_decide; lia.
  - intros u p Hp. apply (inv_targets g' Hg') in Hp.
    rewrite <- (inv_names_length g' Hg') in Hp.
    apply lookup_lt_is_Some in Hp as [other Hother].
    apply (inv_index g' Hg') in Hother. exists other. split; [|done].
    intros ->. congruence.
  - intros u' v' c. unfold g', removeLocation. rewrite Hk. simpl.
    unfold edge_count. by rewrite row_compact, count_compact.
Qed.

Lemma removal_compaction_witness :
  locationToIndex example_graph !! "B" = Some 1
  ∧ locationToIndex (removeLocation "B" example_graph).1 !! "C" = Some (2 - 1).
Proof.
  assert (locationToIndex example_graph !! "B" = Some 1) as Hk by reflexivity.
  split; [exact Hk|].
  destruct (removal_compaction example_mutations "B" 1 Hk) as (_ & _ & _ & _ & Hup & _).
  apply (Hup "C" 2); [reflexivity|lia].
Defined.

(** C5. A route from an existing location to itself is accepted, whatever
    its cost: the row of the location receives the self-loop entry (twice,
    once for each end of the route) and nothing else changes in it. *)
Theorem self_route_added (ms : list mutation) (L : string) (c : Z) (h : nat) :
  let g := run_mutations ms empty_dpo in
  locationToIndex g !! L = Some h →
  (addRoute L L c g).2 = RouteAdded
  ∧ (h, c) ∈ row (adjList (addRoute L L c g).1) h
  ∧ row (adjList (addRoute L L c g).1) h = row (adjList g) h ++ [(h, c); (h, c)].
Proof.
  intros g Hh.
  assert (graph_inv g) as Hg by (apply run_mutations_inv, empty_inv).
  assert (row (adjList (addRoute L L c g).1) h = row (adjList g) h ++ [(h, c); (h, c)])
    as Hrow.
  { rewrite (addRoute_row L L c g h h h Hg Hh Hh). by rewrite !decide_True. }
  split_and!; [|rewrite Hrow|done].
  - unfold addRoute. by rewrite Hh.
  - rewrite elem_of_app. right. apply list_elem_of_here.
Qed.

Lemma self_route_added_witness :
  locationToIndex example_graph !! "A" = Some 0
  ∧ (0, 7%Z) ∈ row (adjList (addRoute "A" "A" 7 example_graph).1) 0.
Proof.
  split; [reflexivity|].
  apply (self_route_added example_mutations "A" 7 0).
  reflexivity.
Defined.

(** C6. Adding the same route twice puts two copies in each row; one
    removeRoute then leaves no entry for [v] in the row of [u] and no entry
    for [u] in the row of [v]. *)
Theorem duplicate_route_removed (ms : list mutation) (from to : string) (c : Z)
  (u v : nat) :
  let g := run_mutations ms empty_dpo in
  let g2 := (addRoute from to c (addRoute from to c g).1).1 in
  let g3 := (removeRoute from to g2).1 in
  locationToIndex g !! from = Some u →
  locationToIndex g !! to = Some v →
  2 ≤ edge_count (adjList g2) u v c
  ∧ 2 ≤ edge_count (adjList g2) v u c
  ∧ (removeRoute from to g2).2 = RouteRemoved
  ∧ (∀ p, p ∈ row (adjList g3) u → p.1 ≠ v)
  ∧ (∀ p, p ∈ row (adjList g3) v → p.1 ≠ u).
Proof.
  intros g g2 g3 Hu Hv.
  assert (graph_inv g) as Hg by (apply run_mutations_inv, empty_inv).
  set (g1 := (addRoute from to c g).1).
  assert (graph_inv g1) as Hg1 by (by apply addRoute_inv).
  assert (graph_inv g2) as Hg2 by (by apply addRoute_inv).
  assert (locationToIndex g1 !! from = Some u ∧ locationToIndex g1 !! to = Some v)
    as [Hu1 Hv1].
  { unfold g1, addRoute. by rewrite Hu, Hv. }
  assert (locationToIndex g2 !! from = Some u ∧ locationToIndex g2 !! to = Some v)
    as [Hu2 Hv2].
  { unfold g2. fold g1. unfold addRoute. by rewrite Hu1, Hv1. }
  assert (2 ≤ edge_count (adjList g2) u v c) as Hcount.
  { unfold edge_count, g2. fold g1.
    rewrite (addRoute_row from to c g1 u v u Hg1 Hu1 Hv1).
    unfold g1. rewrite (addRoute_row from to c g u v u Hg Hu Hv).
    rewrite !decide_True by done. rewrite !count_app, !count_singleton.
    rewrite !decide_True by done. lia. }
  split_and!.
  - done.
  - by rewrite <- (inv_symmetric g2 Hg2 u v c).
  - unfold removeRoute. by rewrite Hu2, Hv2.
  - intros p Hp. apply (removeRoute_row from to g2 u v u Hg2 Hu2 Hv2) in Hp.
    destruct Hp as (_ & Hn & _). intros Heq. by apply Hn.
  - intros p Hp. apply (removeRoute_row from to g2 u v v Hg2 Hu2 Hv2) in Hp.
    destruct Hp as (_ & _ & Hn). intros Heq. by apply Hn.
Qed.

Lemma duplicate_route_removed_witness :
  locationToIndex example_graph !! "A" = Some 0
  ∧ locationToIndex example_graph !! "B" = Some 1
  ∧ ∀ p, p ∈ row (adjList (removeRoute "A" "B"
        (addRoute "A" "B" 4 (addRoute "A" "B" 4 example_graph).1).1).1) 0 → p.1 ≠ 1.
Proof.
  split; [reflexivity|]. split; [reflexivity|].
  apply (duplicate_route_removed example_mutations "A" "B" 4 0 1); reflexivity.
Defined.

(** C9. A call that reports an error changes nothing: addLocation of a
    name that is present, and removeLocation, addRoute, removeRoute,
    optimizeDeliveryPlan and simulateDelivery on a name that is absent, print
    their error line and return the state they were given. *)
Theorem error_is_noop (fuel : nat) (g : DeliveryPathOptimizer) :
  (∀ c, reports_error (execute fuel c g).2 = true → (execute fuel c g).1 = g)
  ∧ (∀ name, is_Some (locationToIndex g !! name) →
       addLocation name g = (g, LocationAlreadyExists))
  ∧ (∀ name, locationToIndex g !! name = None →
       removeLocation name g = (g, LocationNotFound))
  ∧ (∀ from to cost,
       locationToIndex g !! from = None ∨ locationToIndex g !! to = None →
       addRoute from to cost g = (g, EndpointsNotFound))
  ∧ (∀ from to,
       locationToIndex g !! from = None ∨ locationToIndex g !! to = None →
       removeRoute from to g = (g, EndpointsNotFound))
  ∧ (∀ start, locationToIndex g !! start = None →
       execute fuel (OptimizeDeliveryPlan start) g = (g, PlanLines (Some PlanStartNotFound)))
  ∧ (∀ start, locationToIndex g !! start = None →
       execute fuel (SimulateDelivery start) g = (g, RouteLines (Some RouteStartNotFound))).
Proof.
  split_and!.
  - intros [[name|name|from to cost|from to]|start|start]; simpl; try done.
    + unfold addLocation. by destruct (has_location g name).
    + unfold removeLocation. by destruct (locationToIndex g !! name).
    + unfold addRoute.
      by destruct (locationToIndex g !! from), (locationToIndex g !! to).
    + unfold removeRoute.
      by destruct (locationToIndex g !! from), (locationToIndex g !! to).
  - intros name Hname. unfold addLocation, has_location.
    by rewrite bool_decide_eq_true_2.
  - intros name Hname. unfold removeLocation. by rewrite Hname.
  - intros from to cost [H|H]; unfold addRoute; rewrite H; [done|].
    by destruct (locationToIndex g !! from).
  - intros from to [H|H]; unfold removeRoute; rewrite H; [done|].
    by destruct (locationToIndex g !! from).
  - intros start H. simpl. unfold optimizeDeliveryPlan. by rewrite H.
  - intros start H. simpl. unfold simulateDelivery. by rewrite H.
Qed.

(** ** The shortest-path example *)

Lemma dijkstra_loop_mono adj fuel : ∀ fuel' dist pq final,
  dijkstra_loop fuel adj dist pq = Some final →
  fuel ≤ fuel' →
  dijkstra_loop fuel' adj dist pq = Some final.
Proof.
  induction fuel as [|fuel IH]; intros fuel' dist pq final Hrun Hle; [done|].
  destruct fuel' as [|fuel']; [lia|].
  simpl in *. destruct (pq_pop pq) as [[[d u] pq']|]; [|done].
  destruct (dist !!! u <? d)%Z.
  - apply IH; [done|lia].
  - destruct (relax u (adj !!! u) dist pq') as [dist' pq''].
    apply IH; [done|lia].
Qed.

Lemma optimizeDeliveryPlan_mono fuel fuel' g start r :
  optimizeDeliveryPlan fuel g start = Some r →
  fuel ≤ fuel' →
  optimizeDeliveryPlan fuel' g start = Some r.
Proof.
  unfold optimizeDeliveryPlan, shortest_distances.
  destruct (locationToIndex g !! start) as [src|]; [|done].
  intros Hrun Hle.
  destruct (dijkstra_loop fuel _ _ _) as [final|] eqn:Hloop; [|done].
  by rewrite (dijkstra_loop_mono _ _ _ _ _ _ Hloop Hle).
Qed.

(** C1. On the graph with locations A, B, C and routes A-B of cost 1, B-C of
    cost 2 and A-C of cost 5, the query from A computes the distances 0, 1
    and 3 (C is reached through B, not by the direct route of cost 5) and
    prints each location with its distance and five times its distance. *)
Theorem example_shortest_paths :
  adjList example_graph
  = [[(1, 1%Z); (2, 5%Z)]; [(0, 1%Z); (2, 2%Z)]; [(1, 2%Z); (0, 5%Z)]]
  ∧ locationToIndex example_graph !! "A" = Some 0
  ∧ shortest_distances 5 example_graph 0 = Some [0%Z; 1%Z; 3%Z]
  ∧ ∀ fuel, 5 ≤ fuel →
      optimizeDeliveryPlan fuel example_graph "A"
      = Some (Plan [Eta "A" 0 (0 * 5); Eta "B" 1 (1 * 5); Eta "C" 3 (3 * 5)]).
Proof.
  split_and!; [by vm_compute..|].
  intros fuel Hfuel.
  apply (optimizeDeliveryPlan_mono 5); [by vm_compute|done].
Qed.

(** ** Breadth-first traversal *)

Section keep_first_facts.

Lemma filter_absorb (P Q : nat → Prop)
  `{!∀ x, Decision (P x), !∀ x, Decision (Q x)} (l : list nat) :
  (∀ y, P y → Q y) → filter P (filter Q l) = filter P l.
Proof.
  intros HPQ. rewrite list_filter_filter. apply list_filter_iff. intuition (subst; eauto; congruence).
Qed.

Lemma filter_swap (P Q : nat → Prop)
  `{!∀ x, Decision (P x), !∀ x, Decision (Q x)} (l : list nat) :
  filter P (filter Q l) = filter Q (filter P l).
Proof.
  rewrite !list_filter_filter. apply list_filter_iff. intuition (subst; eauto; congruence).
Qed.

Lemma keep_first_filter (P : nat → Prop) `{!∀ x, Decision (P x)} (l : list nat) :
  filter P (keep_first l) = keep_first (filter P l).
Proof.
  induction l as [|x l IH]; [done|].
  simpl. rewrite !filter_cons. destruct (decide (P x)) as [HP|HP]; simpl.
  - by rewrite filter_swap, IH.
  - rewrite <- IH. apply filter_absorb. intros y Hy ->. done.
Qed.

Lemma elem_of_keep_first (l : list nat) x : x ∈ keep_first l ↔ x ∈ l.
Proof.
  induction l as [|y l IH]; [done|].
  simpl. rewrite !elem_of_cons, list_elem_of_filter, IH.
  destruct (decide (x = y)); intuition (subst; eauto; congruence).
Qed.

Lemma NoDup_keep_first (l : list nat) : NoDup (keep_first l).
Proof.
  induction l as [|y l IH]; simpl; [constructor|].
  apply NoDup_cons. split.
  - rewrite list_elem_of_filter. intuition (subst; eauto; congruence).
  - by apply NoDup_filter.
Qed.

End keep_first_facts.

Section visit.

(** What the loop over a row does: the queue receives the unmarked
    neighbours, each once, in the order of the row, and they are marked. *)
Lemma visit_neighbors_spec edges : ∀ visited q,
  Forall (λ p : nat * Z, p.1 < length visited) edges →
  (visit_neighbors edges visited q).2 = q ++ unvisited_neighbors edges visited
  ∧ length (visit_neighbors edges visited q).1 = length visited
  ∧ ∀ v, (visit_neighbors edges visited q).1 !!! v = true
         ↔ visited !!! v = true ∨ v ∈ edges.*1.
Proof.
  induction edges as [|[nb c] rest IH]; intros visited q Hlt.
  - simpl. unfold unvisited_neighbors. simpl. rewrite app_nil_r.
    split_and!; [done..|]. intros v. rewrite elem_of_nil. intuition (subst; eauto; congruence).
  - apply Forall_cons in Hlt as [Hnb Hrest]. simpl in Hnb. simpl.
    destruct (visited !!! nb) eqn:Hvis.
    + destruct (IH visited q Hrest) as (Hq & Hlen & Hmark).
      split_and!; [|done|].
      * rewrite Hq. unfold unvisited_neighbors. simpl.
        rewrite filter_cons_False; [done|]. by rewrite Hvis.
      * intros v. rewrite Hmark, elem_of_cons.
        destruct (decide (v = nb)) as [->|]; intuition (subst; eauto; congruence).
    + assert (Forall (λ p : nat * Z, p.1 < length (<[nb:=true]> visited)) rest)
        as Hrest' by (by rewrite length_insert).
      destruct (IH (<[nb:=true]> visited) (q ++ [nb]) Hrest') as (Hq & Hlen & Hmark).
      split_and!.
      * rewrite Hq, <- app_assoc. f_equal. unfold unvisited_neighbors. simpl.
        rewrite filter_cons_True by done. simpl. f_equal.
        rewrite keep_first_filter, list_filter_filter. f_equal.
        apply list_filter_iff. intros v.
        rewrite list_lookup_total_insert. case_decide; intuition (subst; eauto; congruence).
      * by rewrite Hlen, length_insert.
      * intros v. rewrite Hmark, elem_of_cons, list_lookup_total_insert.
        case_decide; intuition (subst; eauto; congruence).
Qed.

Lemma elem_of_unvisited_neighbors edges visited v :
  v ∈ unvisited_neighbors edges visited ↔ v ∈ edges.*1 ∧ visited !!! v = false.
Proof.
  unfold unvisited_neighbors.
  rewrite elem_of_keep_first, list_elem_of_filter. intuition (subst; eauto; congruence).
Qed.

End visit.

Section bfs.

Variable adj : list (list (nat * Z)).
Variable n : nat.
Variable src : nat.
Hypothesis Htargets : targets_below n adj.

Lemma edge_target u v : edge adj u v ↔ v ∈ (row adj u).*1.
Proof.
  unfold edge. rewrite list_elem_of_fmap. split.
  - intros [c Hc]. by exists (v, c).
  - intros ([v' c] & -> & Hp). by exists c.
Qed.

Lemma NoDup_below_length (l : list nat) :
  NoDup l → (∀ v, v ∈ l → v < n) → length l ≤ n.
Proof.
  intros Hnd Hlt. transitivity (length (seq 0 n)); [|by rewrite length_seq].
  apply submseteq_length, NoDup_submseteq; [done|].
  intros v Hv. apply elem_of_seq. specialize (Hlt v Hv). lia.
Qed.

Lemma bfs_inv_init : src < n → bfs_inv adj n src (<[src := true]> (replicate n false)) [src] [].
Proof.
  intros Hsrc. split; simpl.
  - by rewrite length_insert, length_replicate.
  - apply NoDup_singleton.
  - intros v Hv.
    rewrite list_lookup_total_insert, length_replicate, list_elem_of_singleton.
    case_decide as Hsv; [intuition (subst; eauto; congruence)|].
    rewrite lookup_total_replicate_2 by done. intuition (subst; eauto; congruence).
  - intros v ->%list_elem_of_singleton. apply rtc_refl.
  - apply list_elem_of_here.
  - intros u v Hu. by apply elem_of_nil in Hu.
  - by intros v ->%list_elem_of_singleton.
Qed.

Lemma bfs_inv_step visited curr q out :
  bfs_inv adj n src visited (curr :: q) out →
  bfs_inv adj n src (visit_neighbors (row adj curr) visited q).1
          (visit_neighbors (row adj curr) visited q).2
          (out ++ [curr]).
Proof.
  intros [Hlen Hnd Hmark Hconn Hsrc Hclosed Hbelow].
  assert (Forall (λ p : nat * Z, p.1 < length visited) (row adj curr)) as Hrow.
  { apply Forall_forall. intros p Hp. rewrite Hlen. by eapply Htargets. }
  destruct (visit_neighbors_spec (row adj curr) visited q Hrow) as (Hq & Hlen' & Hmark').
  rewrite Hq.
  assert (∀ v, v ∈ (out ++ [curr]) ++ q ++ unvisited_neighbors (row adj curr) visited
               ↔ v ∈ out ++ curr :: q
                 ∨ v ∈ unvisited_neighbors (row adj curr) visited) as Hsplit.
  { intros v. rewrite !elem_of_app, !elem_of_cons, elem_of_nil. tauto. }
  split.
  - by rewrite Hlen'.
  - replace ((out ++ [curr]) ++ q ++ unvisited_neighbors (row adj curr) visited)
      with ((out ++ curr :: q) ++ unvisited_neighbors (row adj curr) visited)
      by (by rewrite <- !app_assoc).
    apply NoDup_app. split_and!; [done| |apply NoDup_keep_first].
    intros v Hv Hv'. apply Hmark in Hv; [|by apply Hbelow].
    apply elem_of_unvisited_neighbors in Hv' as [_ Hv']. congruence.
  - intros v Hv. rewrite Hmark', Hsplit, elem_of_unvisited_neighbors, (Hmark v Hv).
    destruct (decide (v ∈ out ++ curr :: q)) as [Hin|Hnin]; [tauto|].
    split; [|tauto]. intros [?|Hv']; [tauto|]. right. split; [done|].
    destruct (visited !!! v) eqn:Hvis; [|done]. by apply Hmark in Hvis.
  - intros v [Hv|Hv]%Hsplit; [by apply Hconn|].
    apply elem_of_unvisited_neighbors in Hv as [Hv _].
    eapply rtc_r; [apply Hconn|by apply edge_target].
    rewrite elem_of_app, elem_of_cons. tauto.
  - apply Hsplit. by left.
  - intros u v Hu Hedge. apply Hsplit.
    apply elem_of_app in Hu as [Hu|Hu%list_elem_of_singleton].
    + left. by eapply Hclosed.
    + subst u. apply edge_target in Hedge.
      assert (v < n) as Hv.
      { apply list_elem_of_fmap in Hedge as (p & -> & Hp). by eapply Htargets. }
      destruct (visited !!! v) eqn:Hvis.
      * left. by apply Hmark.
      * right. by apply elem_of_unvisited_neighbors.
  - intros v [Hv|Hv]%Hsplit; [by apply Hbelow|].
    apply elem_of_unvisited_neighbors in Hv as [Hv _].
    apply list_elem_of_fmap in Hv as (p & -> & Hp). by eapply Htargets.
Qed.

Lemma bfs_inv_final visited out :
  bfs_inv adj n src visited [] out →
  NoDup out ∧ ∀ v, v ∈ out ↔ connected adj src v.
Proof.
  intros [Hlen Hnd Hmark Hconn Hsrc Hclosed Hbelow].
  rewrite app_nil_r in *. split; [done|].
  intros v. split; [apply Hconn|].
  unfold connected. revert v. apply rtc_ind_r; [done|].
  intros u v Hsv Huv IH.
  exact (Hclosed u v IH Huv).
Qed.

(** With one unit of fuel for every location not yet delivered, and one
    more, the loop ends, and it has delivered the component of the source,
    each location once. *)
Lemma bfs_loop_complete fuel : ∀ visited q out,
  bfs_inv adj n src visited q out →
  n - length out < fuel →
  ∃ final,
    bfs_loop fuel adj visited q out = Some final
    ∧ NoDup final ∧ ∀ v, v ∈ final ↔ connected adj src v.
Proof.
  induction fuel as [|fuel IH]; intros visited q out Hinv Hfuel; [lia|].
  destruct q as [|curr q]; simpl.
  - exists out. split; [done|]. by eapply bfs_inv_final.
  - pose proof (bfs_inv_step visited curr q out Hinv) as Hstep.
    unfold row in Hstep.
    destruct (visit_neighbors (adj !!! curr) visited q) as [visited' q'] eqn:Hvisit.
    apply IH; [done|].
    pose proof (NoDup_below_length _ (bi_nodup _ _ _ _ _ _ Hinv) (bi_below _ _ _ _ _ _ Hinv)) as Hle.
    rewrite !length_app in *. simpl in *. lia.
Qed.

End bfs.

Section components.

Lemma edge_symmetric adj u v : symmetric_adj adj → edge adj u v → edge adj v u.
Proof.
  intros Hsym [c Hc]. exists c.
  assert (0 < edge_count adj u v c) as Hpos.
  { unfold edge_count.
    assert ((v, c) ∈ filter (λ p, p = (v, c)) (row adj u)) as Hin
      by (by apply list_elem_of_filter).
    destruct (filter _ (row adj u)); [by apply elem_of_nil in Hin|simpl; lia]. }
  rewrite Hsym in Hpos. unfold edge_count in Hpos.
  destruct (filter (λ p, p = (u, c)) (row adj v)) as [|p l] eqn:Hf; [simpl in Hpos; lia|].
  assert (p ∈ filter (λ p, p = (u, c)) (row adj v)) as Hp
    by (rewrite Hf; apply list_elem_of_here).
  apply list_elem_of_filter in Hp as [-> Hp]. done.
Qed.

Lemma connected_symmetric adj u v :
  symmetric_adj adj → connected adj u v → connected adj v u.
Proof.
  intros Hsym Huv. induction Huv as [|u w v Huw Hwv IH]; [apply rtc_refl|].
  eapply rtc_r; [exact IH|]. by apply edge_symmetric.
Qed.

Lemma connected_below adj n src v :
  targets_below n adj → src < n → connected adj src v → v < n.
Proof.
  intros Htargets Hsrc Hv. revert v Hv. apply rtc_ind_r; [done|].
  intros u v _ [c Hc] _. by apply (Htargets u (v, c)).
Qed.

End components.

(** ** The order of the queue *)

Section discovery.

Variable adj : list (list (nat * Z)).
Variable n : nat.
Variable src : nat.
Hypothesis Htargets : targets_below n adj.

Lemma sorted_filter (R : relation nat) (P : nat → Prop) `{!∀ x, Decision (P x)}
  (l : list nat) :
  StronglySorted R l → StronglySorted R (filter P l).
Proof.
  induction 1 as [|x l Hs IH Hall]; [constructor|].
  rewrite filter_cons. destruct (decide (P x)); [|done].
  constructor; [done|]. rewrite Forall_forall in Hall |- *.
  intros y [_ Hy]%list_elem_of_filter. by apply Hall.
Qed.

Lemma sorted_weaken (R R' : relation nat) (l : list nat) :
  StronglySorted R l →
  (∀ x y, x ∈ l → y ∈ l → R x y → R' x y) →
  StronglySorted R' l.
Proof.
  induction 1 as [|x l Hs IH Hall]; intros HR; [constructor|].
  constructor.
  - apply IH. intros y z Hy Hz. apply HR; by apply list_elem_of_further.
  - rewrite Forall_forall in Hall |- *. intros y Hy.
    apply HR; [apply list_elem_of_here|by apply list_elem_of_further|by apply Hall].
Qed.

Lemma sorted_lookup (R : relation nat) (l : list nat) : ∀ i j x y,
  StronglySorted R l → i < j → l !! i = Some x → l !! j = Some y → R x y.
Proof.
  induction l as [|z l IH]; intros i j x y Hs Hij Hi Hj; [done|].
  apply StronglySorted_cons in Hs as [Hall Hs].
  destruct j as [|j]; [lia|]. simpl in Hj. destruct i as [|i]; simpl in Hi.
  - injection Hi as ->. rewrite Forall_forall in Hall.
    apply Hall. by eapply list_elem_of_lookup_2.
  - apply (IH i j); [done|lia|done..].
Qed.

Lemma first_at_unique l a b x : first_at l a x → first_at l b x → a = b.
Proof.
  intros [Ha Hfa] [Hb Hfb].
  destruct (decide (a < b)); [by destruct (Hfb a)|].
  destruct (decide (b < a)); [by destruct (Hfa b)|]. lia.
Qed.

Lemma first_at_head z l a : first_at (z :: l) a z → a = 0.
Proof.
  intros [_ Hfirst]. destruct a as [|a]; [done|].
  by destruct (Hfirst 0); [lia|].
Qed.

Lemma first_at_tail z l a x :
  x ≠ z → first_at (z :: l) a x → ∃ a', a = S a' ∧ first_at l a' x.
Proof.
  intros Hne [Ha Hfirst]. destruct a as [|a]; simpl in Ha; [congruence|].
  exists a. split; [done|]. split; [done|].
  intros j Hj. apply (Hfirst (S j)). lia.
Qed.

(** [keep_first] keeps the order of the first occurrences. *)
Lemma keep_first_sorted (l : list nat) :
  StronglySorted (λ x y, ∀ a b, first_at l a x → first_at l b y → a < b)
    (keep_first l).
Proof.
  induction l as [|z l IH]; simpl; constructor.
  - eapply sorted_weaken; [apply sorted_filter, IH|].
    intros x y [Hxz _]%list_elem_of_filter [Hyz _]%list_elem_of_filter Hxy a b Ha Hb.
    apply (first_at_tail z l a x Hxz) in Ha as (a' & -> & Ha').
    apply (first_at_tail z l b y Hyz) in Hb as (b' & -> & Hb').
    specialize (Hxy a' b' Ha' Hb'). lia.
  - apply Forall_forall. intros y [Hyz _]%list_elem_of_filter a b Ha Hb.
    apply first_at_head in Ha. subst a.
    apply (first_at_tail z l b y Hyz) in Hb as (b' & -> & _). lia.
Qed.

Lemma discovered_below l p v : discovered_at adj l p v → p < length l.
Proof. intros [(u & Hu & _) _]. by eapply lookup_lt_Some. Qed.

Lemma discovered_extend out more p v :
  discovered_at adj out p v → discovered_at adj (out ++ more) p v.
Proof.
  intros Hd. pose proof (discovered_below _ _ _ Hd) as Hp.
  destruct Hd as [(u & Hu & Hedge) Hfirst]. split.
  - exists u. split; [|done]. by apply lookup_app_l_Some.
  - intros j u' Hj Hu'. rewrite lookup_app_l in Hu' by lia. by eapply Hfirst.
Qed.

Lemma discovered_unique l p p' v :
  discovered_at adj l p v → discovered_at adj l p' v → p = p'.
Proof.
  intros [(u & Hu & He) Hfirst] [(u' & Hu' & He') Hfirst'].
  destruct (decide (p < p')); [by destruct (Hfirst' p u)|].
  destruct (decide (p' < p)); [by destruct (Hfirst p' u')|]. lia.
Qed.

Lemma bfs_discovery_init : bfs_discovery adj src [src] [].
Proof.
  split; simpl.
  - intros i x Hi Hx. apply list_lookup_singleton_Some in Hi as [_ ?]. congruence.
  - repeat constructor.
Qed.

(** One turn of the loop: what the row of [curr] adds to the queue comes
    after everything that was waiting, in the order of the row. *)
Lemma bfs_discovery_step visited curr q out :
  bfs_inv adj n src visited (curr :: q) out →
  bfs_discovery adj src (curr :: q) out →
  bfs_discovery adj src (visit_neighbors (row adj curr) visited q).2 (out ++ [curr]).
Proof.
  intros Hinv [Hfound Hsorted].
  assert (Forall (λ p : nat * Z, p.1 < length visited) (row adj curr)) as Hrow.
  { apply Forall_forall. intros p Hp. rewrite (bi_length _ _ _ _ _ _ Hinv).
    by eapply Htargets. }
  destruct (visit_neighbors_spec (row adj curr) visited q Hrow) as (Hq & _ & _).
  rewrite Hq.
  set (W := unvisited_neighbors (row adj curr) visited).
  assert ((out ++ [curr]) ++ q ++ W = (out ++ curr :: q) ++ W) as Hseq
    by (by rewrite <- !app_assoc).
  assert (∀ w, w ∈ W → discovered_at adj (out ++ [curr]) (length out) w) as HW.
  { intros w Hw. apply elem_of_unvisited_neighbors in Hw as [Hedge Hvis]. split.
    - exists curr. split; [|by apply edge_target].
      rewrite lookup_app_r by lia. by rewrite Nat.sub_diag.
    - intros j u' Hj Hu' He. rewrite lookup_app_l in Hu' by done.
      apply list_elem_of_lookup_2 in Hu'.
      pose proof (bi_closed _ _ _ _ _ _ Hinv u' w Hu' He) as Hin.
      assert (w < n) as Hwn by (by apply (bi_below _ _ _ _ _ _ Hinv)).
      apply (bi_marked _ _ _ _ _ _ Hinv w Hwn) in Hin. congruence. }
  assert (∀ x, x ∈ out ++ curr :: q → x ≠ src →
            ∃ p, discovered_at adj out p x ∧ p < length out) as Hold.
  { intros x [i Hi]%list_elem_of_lookup_1 Hx.
    destruct (Hfound i x Hi Hx) as (p & Hp & _).
    exists p. split; [done|by eapply discovered_below]. }
  split.
  - intros i x. rewrite Hseq. intros Hi Hx.
    apply lookup_app_Some in Hi as [Hi|[Hge Hi]].
    + destruct (Hfound i x Hi Hx) as (p & Hp & Hlt).
      exists p. split; [by apply discovered_extend|done].
    + exists (length out). split; [by eapply HW, list_elem_of_lookup_2|].
      rewrite length_app in Hge. simpl in Hge. lia.
  - rewrite Hseq. apply StronglySorted_app_2.
    + intros x w Hx Hw Hxs Hws pv pw Hpv Hpw. left.
      rewrite <- (discovered_unique _ _ _ _ (HW w Hw) Hpw).
      destruct (Hold x Hx Hxs) as (p & Hp & Hlt).
      by rewrite <- (discovered_unique _ _ _ _ (discovered_extend _ [curr] _ _ Hp) Hpv).
    + eapply sorted_weaken; [exact Hsorted|].
      intros x y Hx Hy Hxy Hxs Hys pv pw Hpv Hpw.
      destruct (Hold x Hx Hxs) as (p & Hp & Hlt).
      destruct (Hold y Hy Hys) as (p' & Hp' & Hlt').
      rewrite <- (discovered_unique _ _ _ _ (discovered_extend _ [curr] _ _ Hp) Hpv).
      rewrite <- (discovered_unique _ _ _ _ (discovered_extend _ [curr] _ _ Hp') Hpw).
      destruct (Hxy Hxs Hys p p' Hp Hp') as [?|[-> Hrow']]; [by left|].
      right. split; [done|]. intros u a b Hu.
      rewrite lookup_app_l in Hu by done. by apply Hrow'.
    + unfold W, unvisited_neighbors. rewrite <- keep_first_filter.
      eapply sorted_weaken; [apply sorted_filter, keep_first_sorted|].
      intros x y Hx Hy Hxy Hxs Hys pv pw Hpv Hpw.
      assert (x ∈ W ∧ y ∈ W) as [HxW HyW].
      { unfold W, unvisited_neighbors. by rewrite <- keep_first_filter. }
      rewrite <- (discovered_unique _ _ _ _ (HW x HxW) Hpv).
      rewrite <- (discovered_unique _ _ _ _ (HW y HyW) Hpw).
      right. split; [done|]. intros u a b Hu.
      rewrite lookup_app_r in Hu by lia. rewrite Nat.sub_diag in Hu.
      injection Hu as <-. apply Hxy.
Qed.

Lemma bfs_loop_discovery fuel : ∀ visited q out final,
  bfs_inv adj n src visited q out →
  bfs_discovery adj src q out →
  bfs_loop fuel adj visited q out = Some final →
  bfs_discovery adj src [] final.
Proof.
  induction fuel as [|fuel IH]; intros visited q out final Hinv Hdisc Hloop; [done|].
  simpl in Hloop. destruct q as [|curr q].
  - by injection Hloop as <-.
  - pose proof (bfs_inv_step adj n src Htargets visited curr q out Hinv) as Hinv'.
    pose proof (bfs_discovery_step visited curr q out Hinv Hdisc) as Hdisc'.
    unfold row in Hinv', Hdisc'.
    destruct (visit_neighbors (adj !!! curr) visited q) as [visited' q'].
    by eapply IH.
Qed.

(** In the list of deliveries: a location other than the source is found
    from an earlier delivery; of two such locations the one found from the
    earlier delivery comes first, and of two found from the same delivery the
    one that comes first in its row. *)
Lemma discovery_order order :
  bfs_discovery adj src [] order →
  (∀ i v, order !! i = Some v → v ≠ src →
     ∃ p, discovered_at adj order p v ∧ p < i)
  ∧ (∀ iv iw v w pv pw,
       order !! iv = Some v → order !! iw = Some w → v ≠ src → w ≠ src →
       discovered_at adj order pv v → discovered_at adj order pw w →
       pv < pw → iv < iw)
  ∧ (∀ iv iw v w p u a b,
       order !! iv = Some v → order !! iw = Some w → v ≠ src → w ≠ src →
       discovered_at adj order p v → discovered_at adj order p w →
       order !! p = Some u →
       first_at ((row adj u).*1) a v → first_at ((row adj u).*1) b w →
       a < b → iv < iw).
Proof.
  intros [Hfound Hsorted]. rewrite app_nil_r in Hfound, Hsorted.
  split_and!.
  - done.
  - intros iv iw v w pv pw Hv Hw Hvs Hws Hpv Hpw Hlt.
    destruct (decide (iv < iw)) as [|Hge]; [done|].
    destruct (decide (iv = iw)) as [->|Hne].
    + assert (v = w) as -> by congruence.
      pose proof (discovered_unique _ _ _ _ Hpv Hpw). lia.
    + assert (iw < iv) as Hwv by lia.
      pose proof (sorted_lookup _ _ _ _ _ _ Hsorted Hwv Hw Hv Hws Hvs pw pv Hpw Hpv)
        as [?|[? _]]; lia.
  - intros iv iw v w p u a b Hv Hw Hvs Hws Hpv Hpw Hu Ha Hb Hlt.
    destruct (decide (iv < iw)) as [|Hge]; [done|].
    destruct (decide (iv = iw)) as [->|Hne].
    + assert (v = w) as -> by congruence.
      pose proof (first_at_unique _ _ _ _ Ha Hb). lia.
    + assert (iw < iv) as Hwv by lia.
      pose proof (sorted_lookup _ _ _ _ _ _ Hsorted Hwv Hw Hv Hws Hvs p p Hpw Hpv)
        as [?|[_ Hrow]]; [lia|].
      specialize (Hrow u b a Hu Hb Ha). lia.
Qed.

End discovery.

(** C7. From a location of the graph, the traversal ends and delivers to
    every location of the component of the source, to each once, and to no
    other.  The neighbours of a location that are not yet marked enter the
    queue in the order of its row: in the list of deliveries every location
    but the source is found from an earlier delivery (the first one with a
    route to it), a location found from an earlier delivery comes before one
    found from a later delivery, and of two locations found from the same
    delivery the one that comes first in that row is delivered first. *)
Theorem bfs_visits_component (ms : list mutation) (start : string) (src fuel : nat) :
  let g := run_mutations ms empty_dpo in
  locationToIndex g !! start = Some src →
  locationCount g < fuel →
  ∃ order,
    bfs_order fuel g src = Some order
    ∧ simulateDelivery fuel g start
      = Some (Deliveries ((λ h, indexToLocation g !!! h) <$> order))
    ∧ NoDup order
    ∧ (∀ h, h ∈ order ↔ connected (adjList g) src h)
    ∧ NoDup ((λ h, indexToLocation g !!! h) <$> order)
    ∧ (∀ name, name ∈ (λ h, indexToLocation g !!! h) <$> order
               ↔ ∃ h, locationToIndex g !! name = Some h ∧ connected (adjList g) src h)
    ∧ (∀ u v, connected (adjList g) u v → connected (adjList g) v u)
    ∧ (∀ u visited q, length visited = locationCount g →
         (visit_neighbors (row (adjList g) u) visited q).2
         = q ++ unvisited_neighbors (row (adjList g) u) visited)
    ∧ (∀ i v, order !! i = Some v → v ≠ src →
         ∃ p, discovered_at (adjList g) order p v ∧ p < i)
    ∧ (∀ iv iw v w pv pw,
         order !! iv = Some v → order !! iw = Some w → v ≠ src → w ≠ src →
         discovered_at (adjList g) order pv v → discovered_at (adjList g) order pw w →
         pv < pw → iv < iw)
    ∧ (∀ iv iw v w p u a b,
         order !! iv = Some v → order !! iw = Some w → v ≠ src → w ≠ src →
         discovered_at (adjList g) order p v → discovered_at (adjList g) order p w →
         order !! p = Some u →
         first_at ((row (adjList g) u).*1) a v → first_at ((row (adjList g) u).*1) b w →
         a < b → iv < iw).
Proof.
  intros g Hsrc Hfuel.
  assert (graph_inv g) as Hg by (apply run_mutations_inv, empty_inv).
  pose proof (inv_handle_lt g start src Hg Hsrc) as Hlt.
  pose proof (inv_targets g Hg) as Htargets.
  pose proof (bfs_inv_init (adjList g) (locationCount g) src Hlt) as Hinit.
  destruct (bfs_loop_complete (adjList g) (locationCount g) src Htargets fuel
              _ [src] [] Hinit)
    as (order & Hrun & Hnd & Hconn); [simpl; lia|].
  pose proof (bfs_loop_discovery (adjList g) (locationCount g) src Htargets fuel
                _ [src] [] order Hinit (bfs_discovery_init (adjList g) src) Hrun)
    as Hdisc.
  destruct (discovery_order (adjList g) src order Hdisc) as (Hfound & Hfifo & Hrows).
  assert (∀ h, h ∈ order → indexToLocation g !! h = Some (indexToLocation g !!! h))
    as Hname.
  { intros h Hh. apply list_lookup_lookup_total_lt.
    rewrite (inv_names_length g Hg). eapply connected_below; [done..|]. by apply Hconn. }
  exists order. split_and!; try done.
  - unfold simulateDelivery. rewrite Hsrc. unfold bfs_order. by rewrite Hrun.
  - apply NoDup_fmap_2_strong; [|done].
    intros h1 h2 Hh1 Hh2 Heq. apply Hname in Hh1, Hh2.
    apply (inv_index g Hg) in Hh1, Hh2. congruence.
  - intros name. rewrite list_elem_of_fmap. split.
    + intros (h & -> & Hh). exists h. split; [|by apply Hconn].
      by apply (inv_index g Hg), Hname.
    + intros (h & Hh & Hc). exists h. split; [|by apply Hconn].
      apply (inv_index g Hg) in Hh. by rewrite (list_lookup_total_correct _ _ _ Hh).
  - intros u v. apply connected_symmetric, (inv_symmetric g Hg).
  - intros u visited q Hlen. apply visit_neighbors_spec.
    apply Forall_forall. intros p Hp. rewrite Hlen. by eapply Htargets.
Qed.

Lemma bfs_visits_component_witness :
  locationToIndex example_graph !! "A" = Some 0
  ∧ locationCount example_graph < 4
  ∧ ∃ order, bfs_order 4 example_graph 0 = Some order ∧ NoDup order
             ∧ ∀ iv iw, order !! iv = Some 1 → order !! iw = Some 2 → iv < iw.
Proof.
  assert (locationToIndex example_graph !! "A" = Some 0) as Hsrc by reflexivity.
  assert (locationCount example_graph < 4) as Hfuel by (vm_compute; lia).
  split; [exact Hsrc|]. split; [exact Hfuel|].
  destruct (bfs_visits_component example_mutations "A" 0 4 Hsrc Hfuel)
    as (order & Horder & _ & Hnd & _ & _ & _ & _ & _ & _ & _ & Hrows).
  exists order. split; [done|]. split; [done|].
  assert (order = [0; 1; 2]) as Heq.
  { assert (bfs_order 4 example_graph 0 = Some [0; 1; 2]) as Hrun by (by vm_compute).
    fold example_graph in Horder. congruence. }
  intros iv iw Hv Hw.
  apply (Hrows iv iw 1 2 0 0 0 1 Hv Hw); try done.
  - rewrite Heq. split; [|intros j u' Hj; lia].
    exists 0. split; [done|]. exists 1%Z. fold example_graph.
    rewrite example_graph_adj. apply list_elem_of_here.
  - rewrite Heq. split; [|intros j u' Hj; lia].
    exists 0. split; [done|]. exists 5%Z. fold example_graph.
    rewrite example_graph_adj. apply list_elem_of_further, list_elem_of_here.
  - by rewrite Heq.
  - fold example_graph. rewrite example_graph_adj. split; [done|]. intros j Hj. lia.
  - fold example_graph. rewrite example_graph_adj. split; [done|].
    intros j Hj. destruct j as [|j]; [discriminate|lia].
  - lia.
Defined.

(** ** The priority queue *)

Section queue.

Lemma entry_ltb_irrefl (a : entry) : entry_ltb a a = false.
Proof.
  destruct a as [d u]. unfold entry_ltb. simpl.
  rewrite Z.ltb_irrefl, Nat.ltb_irrefl. by rewrite andb_false_r.
Qed.

(** Two entries are equal when neither is below the other: the order of the
    queue leaves no tie. *)
Lemma entry_ltb_total (a b : entry) :
  entry_ltb a b = false → entry_ltb b a = false → a = b.
Proof.
  destruct a as [d u], b as [e v]. unfold entry_ltb. simpl.
  intros [H1 H2]%orb_false_iff [H3 H4]%orb_false_iff.
  apply Z.ltb_ge in H1, H3. assert (d = e) as -> by lia.
  rewrite Z.eqb_refl in H2, H4. simpl in *.
  apply Nat.ltb_ge in H2, H4. f_equal. lia.
Qed.

Lemma entry_ltb_trans_false (a b c : entry) :
  entry_ltb b a = false → entry_ltb c b = false → entry_ltb c a = false.
Proof.
  destruct a as [d u], b as [e v], c as [f w]. unfold entry_ltb. simpl.
  intros [H1 H2]%orb_false_iff [H3 H4]%orb_false_iff.
  apply Z.ltb_ge in H1, H3.
  apply orb_false_iff. split; [apply Z.ltb_ge; lia|].
  destruct (f =? d)%Z eqn:Hfd; [|done]. apply Z.eqb_eq in Hfd. subst f.
  assert (e = d) as -> by lia. rewrite Z.eqb_refl in H2, H4. simpl in *.
  apply Nat.ltb_ge in H2, H4. apply Nat.ltb_ge. lia.
Qed.

Lemma entry_ltb_tie (d : Z) (u v : nat) : entry_ltb (d, u) (d, v) = (u <? v).
Proof. unfold entry_ltb. simpl. by rewrite Z.ltb_irrefl, Z.eqb_refl. Qed.

Lemma entry_ltb_false_of_true (a b : entry) :
  entry_ltb a b = true → entry_ltb b a = false.
Proof.
  destruct a as [d u], b as [e v]. unfold entry_ltb. simpl.
  intros [H|[H1 H2]%andb_true_iff]%orb_true_iff; apply orb_false_iff.
  - apply Z.ltb_lt in H. split; [apply Z.ltb_ge; lia|].
    apply andb_false_iff. left. apply Z.eqb_neq. lia.
  - apply Z.eqb_eq in H1. apply Nat.ltb_lt in H2. subst e.
    split; [apply Z.ltb_irrefl|]. apply andb_false_iff. right. apply Nat.ltb_ge. lia.
Qed.

Lemma pq_min_spec l : ∀ e,
  pq_min e l ∈ e :: l ∧ ∀ x, x ∈ e :: l → entry_ltb x (pq_min e l) = false.
Proof.
  induction l as [|y l IH]; intros e; simpl.
  - split; [apply list_elem_of_here|].
    intros x ->%list_elem_of_singleton. apply entry_ltb_irrefl.
  - destruct (entry_ltb y e) eqn:Hye.
    + destruct (IH y) as [Hin Hmin]. split.
      * apply elem_of_cons in Hin as [->|Hin];
          [apply list_elem_of_further, list_elem_of_here|by do 2 apply list_elem_of_further].
      * intros x [->|[->|Hx]%elem_of_cons]%elem_of_cons.
        -- eapply entry_ltb_trans_false; [|by apply entry_ltb_false_of_true].
           apply Hmin, list_elem_of_here.
        -- apply Hmin, list_elem_of_here.
        -- apply Hmin. by apply list_elem_of_further.
    + destruct (IH e) as [Hin Hmin]. split.
      * apply elem_of_cons in Hin as [->|Hin];
          [apply list_elem_of_here|by do 2 apply list_elem_of_further].
      * intros x [->|[->|Hx]%elem_of_cons]%elem_of_cons.
        -- apply Hmin, list_elem_of_here.
        -- eapply entry_ltb_trans_false; [|exact Hye]. apply Hmin, list_elem_of_here.
        -- apply Hmin. by apply list_elem_of_further.
Qed.

Lemma remove_first_perm (e : entry) l : e ∈ l → l ≡ₚ e :: remove_first e l.
Proof.
  induction l as [|x l IH]; [by intros ?%elem_of_nil|].
  intros Hin. simpl. destruct (decide (x = e)) as [->|Hne]; [done|].
  apply elem_of_cons in Hin as [->|Hin]; [done|].
  rewrite (IH Hin) at 1. apply Permutation_swap.
Qed.

Lemma remove_first_subset (e x : entry) l : x ∈ remove_first e l → x ∈ l.
Proof.
  induction l as [|y l IH]; [done|]. simpl.
  destruct (decide (y = e)); [by apply list_elem_of_further|].
  intros [->|Hx]%elem_of_cons; [apply list_elem_of_here|].
  apply list_elem_of_further. by apply IH.
Qed.

(** The queue of the model behaves as [std::priority_queue] must. *)
Lemma pq_pop_spec pq top pq' : pq_pop pq = Some (top, pq') → pq_top_pop pq top pq'.
Proof.
  destruct pq as [|e rest]; [done|]. unfold pq_pop.
  intros [= <- <-]. destruct (pq_min_spec rest e) as [Hin Hmin]. split.
  - by apply remove_first_perm.
  - apply Forall_forall. intros x Hx.
    apply Hmin, (remove_first_subset (pq_min e rest) x (e :: rest)), Hx.
Qed.

Lemma pq_pop_None pq : pq_pop pq = None → pq = [].
Proof. by destruct pq. Qed.

(** The least entry is the same, and the rest the same up to its layout,
    however the entries are laid out. *)
Lemma pq_top_pop_unique pq1 pq2 t1 t2 r1 r2 :
  pq1 ≡ₚ pq2 → pq_top_pop pq1 t1 r1 → pq_top_pop pq2 t2 r2 →
  t1 = t2 ∧ r1 ≡ₚ r2.
Proof.
  intros Hperm [Hp1 Hmin1] [Hp2 Hmin2].
  assert (t1 = t2) as ->.
  { assert (t1 ∈ t2 :: r2) as H1 by (rewrite <- Hp2, <- Hperm, Hp1; apply list_elem_of_here).
    assert (t2 ∈ t1 :: r1) as H2 by (rewrite <- Hp1, Hperm, Hp2; apply list_elem_of_here).
    apply elem_of_cons in H1 as [?|H1]; [done|].
    apply elem_of_cons in H2 as [?|H2]; [done|].
    rewrite Forall_forall in Hmin1, Hmin2.
    apply entry_ltb_total; [by apply Hmin2|by apply Hmin1]. }
  split; [done|].
  apply (inj (cons t2)). by rewrite <- Hp1, <- Hp2.
Qed.

Lemma pq_top_pop_nil top pq' : ¬ pq_top_pop [] top pq'.
Proof. intros [Hp _]. by apply Permutation_nil_cons in Hp. Qed.

Lemma relax_perm u edges : ∀ dist pq1 pq2,
  pq1 ≡ₚ pq2 →
  (relax u edges dist pq1).1 = (relax u edges dist pq2).1
  ∧ (relax u edges dist pq1).2 ≡ₚ (relax u edges dist pq2).2.
Proof.
  induction edges as [|[v cost] rest IH]; intros dist pq1 pq2 Hperm; [done|].
  simpl. destruct (_ <? _)%Z; apply IH; [|done].
  unfold pq_push. by rewrite Hperm.
Qed.

(** Two runs from the same distances and the same entries end with the same
    distances. *)
Lemma dijkstra_run_deterministic adj dist pq1 final1 :
  dijkstra_run adj dist pq1 final1 →
  ∀ pq2 final2, pq1 ≡ₚ pq2 → dijkstra_run adj dist pq2 final2 → final1 = final2.
Proof.
  induction 1 as [dist|dist pq1 d u pq1' final1 Htop Hstale Hrun IH
                 |dist pq1 d u pq1' dist' pq1'' final1 Htop Hfresh Hrelax Hrun IH];
    intros pq2 final2 Hperm Hrun2.
  - apply Permutation_nil_l in Hperm. subst pq2.
    inversion Hrun2 as [|? ? ? ? ? ? Htop2|? ? ? ? ? ? ? ? Htop2]; subst; [done|..];
      by apply pq_top_pop_nil in Htop2.
  - inversion Hrun2 as [|? ? d2 u2 pq2' ? Htop2 Hstale2 Hrest2
                        |? ? d2 u2 pq2' dist2 pq2'' ? Htop2 Hfresh2 Hrelax2 Hrest2]; subst.
    + apply Permutation_nil_r in Hperm. subst pq1. by apply pq_top_pop_nil in Htop.
    + destruct (pq_top_pop_unique _ _ _ _ _ _ Hperm Htop Htop2) as [[= <- <-] Hrest].
      by eapply IH.
    + destruct (pq_top_pop_unique _ _ _ _ _ _ Hperm Htop Htop2) as [[= <- <-] Hrest].
      done.
  - inversion Hrun2 as [|? ? d2 u2 pq2' ? Htop2 Hstale2 Hrest2
                        |? ? d2 u2 pq2' dist2 pq2'' ? Htop2 Hfresh2 Hrelax2 Hrest2]; subst.
    + apply Permutation_nil_r in Hperm. subst pq1. by apply pq_top_pop_nil in Htop.
    + destruct (pq_top_pop_unique _ _ _ _ _ _ Hperm Htop Htop2) as [[= <- <-] Hrest].
      done.
    + destruct (pq_top_pop_unique _ _ _ _ _ _ Hperm Htop Htop2) as [[= <- <-] Hrest].
      destruct (relax_perm u (adj !!! u) dist pq1' pq2' Hrest) as [Hd Hq].
      rewrite Hrelax, Hrelax2 in Hd, Hq. simpl in Hd, Hq. subst dist2.
      by eapply IH.
Qed.

(** The loop of the model is one of the runs. *)
Lemma dijkstra_loop_run adj fuel : ∀ dist pq final,
  dijkstra_loop fuel adj dist pq = Some final → dijkstra_run adj dist pq final.
Proof.
  induction fuel as [|fuel IH]; intros dist pq final Hloop; [done|].
  simpl in Hloop. destruct (pq_pop pq) as [[[d u] pq']|] eqn:Hpop.
  - apply pq_pop_spec in Hpop.
    destruct (dist !!! u <? d)%Z eqn:Hstale.
    + apply Z.ltb_lt in Hstale. eapply run_skip; eauto.
    + apply Z.ltb_ge in Hstale.
      destruct (relax u (adj !!! u) dist pq') as [dist' pq''] eqn:Hrelax.
      eapply run_relax; eauto. lia.
  - apply pq_pop_None in Hpop. injection Hloop as <-. subst pq. constructor.
Qed.

Lemma optimizeDeliveryPlan_run fuel g start r :
  optimizeDeliveryPlan fuel g start = Some r → plan_run g start r.
Proof.
  unfold optimizeDeliveryPlan, shortest_distances.
  destruct (locationToIndex g !! start) as [src|] eqn:Hsrc.
  - destruct (dijkstra_loop fuel _ _ _) as [final|] eqn:Hloop; [|done].
    intros [= <-]. apply (plan_run_found g start src final Hsrc).
    by eapply dijkstra_loop_run.
  - intros [= <-]. by constructor.
Qed.

End queue.

(** C10. The shortest-path query is deterministic: the queue orders its
    entries by distance and then by handle, which leaves no tie, so whatever
    the layout of the heap any two runs from the same state and source pop
    the same entries, end with the same distance array and print the same
    plan; the loop of the model is one such run, whatever its fuel. *)
Theorem shortest_paths_deterministic (g : DeliveryPathOptimizer) (start : string) :
  (∀ r1 r2, plan_run g start r1 → plan_run g start r2 → r1 = r2)
  ∧ (∀ src final1 final2,
       dijkstra_run (adjList g)
         (<[src := 0%Z]> (replicate (locationCount g) INT_MAX)) (pq_push (0%Z, src) [])
         final1 →
       dijkstra_run (adjList g)
         (<[src := 0%Z]> (replicate (locationCount g) INT_MAX)) (pq_push (0%Z, src) [])
         final2 →
       final1 = final2)
  ∧ (∀ fuel r, optimizeDeliveryPlan fuel g start = Some r → plan_run g start r)
  ∧ (∀ fuel1 fuel2 r1 r2,
       optimizeDeliveryPlan fuel1 g start = Some r1 →
       optimizeDeliveryPlan fuel2 g start = Some r2 → r1 = r2)
  ∧ (∀ d u v, entry_ltb (d, u) (d, v) = (u <? v))
  ∧ (∀ a b, entry_ltb a b = false → entry_ltb b a = false → a = b)
  ∧ (∀ pq1 pq2 t1 t2 r1 r2,
       pq1 ≡ₚ pq2 → pq_top_pop pq1 t1 r1 → pq_top_pop pq2 t2 r2 → t1 = t2 ∧ r1 ≡ₚ r2).
Proof.
  assert (∀ r1 r2, plan_run g start r1 → plan_run g start r2 → r1 = r2) as Hdet.
  { intros r1 r2 [Hnone|src final1 Hsrc Hrun1] [Hnone2|src2 final2 Hsrc2 Hrun2];
      try congruence.
    assert (src2 = src) as -> by congruence.
    by rewrite (dijkstra_run_deterministic _ _ _ _ Hrun1 _ _ (reflexivity _) Hrun2). }
  split_and!.
  - exact Hdet.
  - intros src final1 final2 Hrun1 Hrun2.
    exact (dijkstra_run_deterministic _ _ _ _ Hrun1 _ _ (reflexivity _) Hrun2).
  - intros fuel r. apply optimizeDeliveryPlan_run.
  - intros fuel1 fuel2 r1 r2 H1 H2.
    apply Hdet; by eapply optimizeDeliveryPlan_run.
  - apply entry_ltb_tie.
  - apply entry_ltb_total.
  - apply pq_top_pop_unique.
Qed.

(** A run exists: the one of the model on the example. *)
Example example_plan_run :
  plan_run example_graph "A" (Plan [Eta "A" 0 0; Eta "B" 1 5; Eta "C" 3 15]).
Proof. apply (optimizeDeliveryPlan_run 5). by vm_compute. Qed.

(** ** Shortest paths: the loop ends *)

Section termination.

Lemma wrap_range z : in_int_range (wrap z).
Proof.
  unfold in_int_range, wrap, INT_MAX.
  pose proof (Z.mod_pos_bound (z + 2147483648) 4294967296). lia.
Qed.

Lemma wrap_small z : (-2147483648 ≤ z < 2147483648)%Z → wrap z = z.
Proof. intros Hz. unfold wrap. rewrite Z.mod_small; lia. Qed.

Lemma weight_insert dist : ∀ v x,
  v < length dist →
  in_int_range x → in_int_range (dist !!! v) → (x < dist !!! v)%Z →
  weight (<[v := x]> dist) < weight dist.
Proof.
  unfold weight, in_int_range, INT_MAX.
  induction dist as [|z dist IH]; intros v x Hv Hx Hz Hlt; simpl in Hv; [lia|].
  destruct v as [|v]; simpl in *.
  - lia.
  - specialize (IH v x). simpl in IH.
    assert (v < length dist) as Hv' by lia. specialize (IH Hv' Hx Hz Hlt). lia.
Qed.

Lemma top_pop_length pq top pq' : pq_top_pop pq top pq' → length pq = S (length pq').
Proof. intros [Hp _]. by rewrite Hp. Qed.

Lemma top_pop_elem pq top pq' e :
  pq_top_pop pq top pq' → e ∈ pq ↔ e = top ∨ e ∈ pq'.
Proof. intros [Hp _]. by rewrite Hp, elem_of_cons. Qed.

(** A relaxation that succeeds lowers a distance and adds one entry. *)
Lemma relax_measure u edges : ∀ dist pq,
  Forall in_int_range dist →
  Forall (λ p : nat * Z, p.1 < length dist) edges →
  Forall in_int_range (relax u edges dist pq).1
  ∧ length (relax u edges dist pq).1 = length dist
  ∧ 2 * weight (relax u edges dist pq).1 + length (relax u edges dist pq).2
    ≤ 2 * weight dist + length pq.
Proof.
  induction edges as [|[v cost] rest IH]; intros dist pq Hrange Hlt; [done|].
  apply Forall_cons in Hlt as [Hv Hrest]. simpl in Hv. simpl.
  destruct (wrap (dist !!! u + cost) <? dist !!! v)%Z eqn:Hless; [|by apply IH].
  apply Z.ltb_lt in Hless.
  pose proof (wrap_range (dist !!! u + cost)) as Hnd.
  assert (in_int_range (dist !!! v)) as Hdv by (by apply Forall_lookup_total_1).
  pose proof (weight_insert dist v _ Hv Hnd Hdv Hless) as Hw.
  destruct (IH (<[v := wrap (dist !!! u + cost)]> dist)
               (pq_push (wrap (dist !!! u + cost), v) pq)) as (Hr & Hl & Hm).
  - by apply Forall_insert.
  - by rewrite length_insert.
  - split_and!; [done|by rewrite Hl, length_insert|].
    change (length (pq_push (wrap (dist !!! u + cost), v) pq)) with (S (length pq)) in Hm.
    lia.
Qed.

Lemma dijkstra_loop_terminates adj n fuel : ∀ dist pq,
  targets_below n adj →
  length dist = n →
  Forall in_int_range dist →
  2 * weight dist + length pq < fuel →
  is_Some (dijkstra_loop fuel adj dist pq).
Proof.
  induction fuel as [|fuel IH]; intros dist pq Htargets Hlen Hrange Hfuel; [lia|].
  simpl. destruct (pq_pop pq) as [[[d u] pq']|] eqn:Hpop; [|done].
  apply pq_pop_spec, top_pop_length in Hpop.
  destruct (dist !!! u <? d)%Z.
  - apply IH; [done..|lia].
  - assert (Forall (λ p : nat * Z, p.1 < length dist) (adj !!! u)) as Hrow.
    { apply Forall_forall. intros p Hp. rewrite Hlen. by apply (Htargets u). }
    destruct (relax_measure u (adj !!! u) dist pq' Hrange Hrow) as (Hr & Hl & Hm).
    destruct (relax u (adj !!! u) dist pq') as [dist' pq''].
    simpl in *. apply IH; [done|congruence|done|lia].
Qed.

Lemma initial_range n src : Forall in_int_range (<[src := 0%Z]> (replicate n INT_MAX)).
Proof.
  apply Forall_insert; [apply Forall_replicate|]; unfold in_int_range, INT_MAX; lia.
Qed.

End termination.

(** ** Shortest paths: a location without a path keeps [INT_MAX] *)

Section reachability.

Variable adj : list (list (nat * Z)).
Variable n : nat.
Variable src : nat.
Hypothesis Htargets : targets_below n adj.
Hypothesis Hsrc : src < n.

Lemma reach_inv_init :
  reach_inv adj n src (<[src := 0%Z]> (replicate n INT_MAX)) (pq_push (0%Z, src) []).
Proof.
  split.
  - by rewrite length_insert, length_replicate.
  - apply initial_range.
  - intros v Hv. rewrite list_lookup_total_insert, length_replicate.
    case_decide as Hsv.
    + destruct Hsv as [-> _]. right. apply rtc_refl.
    + left. by apply lookup_total_replicate_2.
  - intros e ->%list_elem_of_singleton. apply rtc_refl.
Qed.

Lemma relax_reach u edges : ∀ dist pq,
  connected adj src u →
  (∀ p, p ∈ edges → p ∈ row adj u) →
  reach_inv adj n src dist pq →
  reach_inv adj n src (relax u edges dist pq).1 (relax u edges dist pq).2.
Proof.
  induction edges as [|[v cost] rest IH]; intros dist pq Hu Hedges Hinv; [done|].
  simpl. destruct (_ <? _)%Z.
  - apply IH; [done|intros p Hp; by apply Hedges, list_elem_of_further|].
    destruct Hinv as [Hlen Hrange Hdist Hqueue].
    assert (connected adj src v) as Hv.
    { eapply rtc_r; [exact Hu|]. exists cost. apply Hedges, list_elem_of_here. }
    split.
    + by rewrite length_insert.
    + apply Forall_insert; [done|apply wrap_range].
    + intros w Hw. rewrite list_lookup_total_insert. case_decide as Hvw.
      * destruct Hvw as [-> _]. by right.
      * by apply Hdist.
    + intros e [->|He]%elem_of_cons; [done|by apply Hqueue].
  - apply IH; [done|intros p Hp; by apply Hedges, list_elem_of_further|done].
Qed.

Lemma run_reach dist pq final :
  dijkstra_run adj dist pq final →
  reach_inv adj n src dist pq → reach_inv adj n src final [].
Proof.
  induction 1 as [dist|dist pq d u pq' final Htop Hstale Hrun IH
                 |dist pq d u pq' dist' pq'' final Htop Hfresh Hrelax Hrun IH];
    intros Hinv; [done|..].
  - apply IH. destruct Hinv as [Hlen Hrange Hdist Hqueue]. split; [done..|].
    intros e He. apply Hqueue, (top_pop_elem _ _ _ e Htop). by right.
  - apply IH.
    assert (connected adj src u) as Hu.
    { apply (ri_queue _ _ _ _ _ Hinv (d, u)), (top_pop_elem _ _ _ _ Htop). by left. }
    assert (reach_inv adj n src dist pq') as Hinv'.
    { destruct Hinv as [Hlen Hrange Hdist Hqueue]. split; [done..|].
      intros e He. apply Hqueue, (top_pop_elem _ _ _ e Htop). by right. }
    pose proof (relax_reach u (adj !!! u) dist pq' Hu (λ p Hp, Hp) Hinv') as Hnext.
    by rewrite Hrelax in Hnext.
Qed.

End reachability.

(** ** Shortest paths: the distances are the least costs *)

Section walks.

Variable adj : list (list (nat * Z)).

Lemma nonneg_row u p : nonneg_costs adj → p ∈ row adj u → (0 ≤ p.2)%Z.
Proof.
  intros Hnonneg Hp. unfold row in Hp.
  destruct (adj !! u) as [r|] eqn:Hr.
  - rewrite (list_lookup_total_correct _ _ _ Hr) in Hp.
    eapply Forall_lookup_1 in Hnonneg; [|exact Hr].
    by eapply Forall_forall in Hnonneg.
  - rewrite list_lookup_total_alt, Hr in Hp. by apply elem_of_nil in Hp.
Qed.

Lemma walk_nonneg src v c : nonneg_costs adj → walk adj src v c → (0 ≤ c)%Z.
Proof.
  intros Hnonneg. induction 1 as [|u v c k Hwalk IH Hedge]; [done|].
  pose proof (nonneg_row u (v, k) Hnonneg Hedge). simpl in *. lia.
Qed.

Lemma walk_below n src v c : targets_below n adj → src < n → walk adj src v c → v < n.
Proof.
  intros Htargets Hsrc. induction 1 as [|u v c k Hwalk IH Hedge]; [done|].
  by apply (Htargets u (v, k)).
Qed.

Lemma walk_connected src v c : walk adj src v c → connected adj src v.
Proof.
  induction 1 as [|u v c k Hwalk IH Hedge]; [apply rtc_refl|].
  eapply rtc_r; [exact IH|by exists k].
Qed.

Lemma connected_walk src v : connected adj src v → ∃ c, walk adj src v c.
Proof.
  revert v. apply rtc_ind_r; [exists 0%Z; constructor|].
  intros u v _ [k Hk] [c Hc]. exists (c + k)%Z. by econstructor.
Qed.

End walks.

Section dijkstra.

Variable adj : list (list (nat * Z)).
Variable n : nat.
Variable src : nat.
Hypothesis Htargets : targets_below n adj.
Hypothesis Hsrc : src < n.
Hypothesis Hnonneg : nonneg_costs adj.
Hypothesis Hfit : costs_fit adj src.

Lemma dij_inv_init :
  dij_inv adj n src (<[src := 0%Z]> (replicate n INT_MAX)) (pq_push (0%Z, src) []).
Proof.
  assert (∀ v, v ≠ src → <[src := 0%Z]> (replicate n INT_MAX) !!! v = INT_MAX
                          ∨ n ≤ v) as Hother.
  { intros v Hv. rewrite list_lookup_total_insert_ne by done.
    destruct (decide (v < n)); [left; by apply lookup_total_replicate_2|right; lia]. }
  assert (<[src := 0%Z]> (replicate n INT_MAX) !!! src = 0%Z) as Hzero.
  { apply list_lookup_total_insert_eq. by rewrite length_replicate. }
  split.
  - by rewrite length_insert, length_replicate.
  - intros v Hv. destruct (decide (v = src)) as [->|Hne].
    + right. rewrite Hzero. split; [constructor|done].
    + left. destruct (Hother v Hne); [done|lia].
  - intros e ->%list_elem_of_singleton. simpl. rewrite Hzero. done.
  - intros u Hu Hfin. destruct (decide (u = src)) as [->|Hne].
    + left. rewrite Hzero. apply list_elem_of_here.
    + destruct (Hother u Hne) as [Hmax|?]; [|lia]. rewrite Hmax in Hfin. lia.
  - done.
Qed.

(** The entry that leaves the queue and is not stale carries the least
    cost of its location. *)
Lemma pop_exact dist pq d u pq' :
  dij_inv adj n src dist pq →
  pq_top_pop pq (d, u) pq' →
  ¬ (dist !!! u < d)%Z →
  u < n ∧ min_cost adj src u (dist !!! u).
Proof.
  intros [Hlen Hwalk Hqueue Hpending Hsource] Htop Hfresh.
  assert ((d, u) ∈ pq) as Hin by (apply (top_pop_elem _ _ _ _ Htop); by left).
  destruct (Hqueue _ Hin) as (Hu & Hle & Hd). simpl in *.
  assert (d = dist !!! u) as -> by lia.
  split; [done|].
  destruct (Hwalk u Hu) as [Hmax|[Hw _]]; [lia|].
  split; [done|].
  assert (∀ w c, walk adj src w c → (c < dist !!! u)%Z → (dist !!! w ≤ c)%Z) as Hbelow.
  { intros w c. induction 1 as [|u' w c' k Hwalk' IH Hedge]; intros Hc; [lia|].
    pose proof (nonneg_row adj u' (w, k) Hnonneg Hedge) as Hk. simpl in Hk.
    assert (dist !!! u' ≤ c')%Z as Hu' by (apply IH; lia).
    pose proof (walk_below adj n src u' c' Htargets Hsrc Hwalk') as Hu'n.
    destruct (Hpending u' Hu'n) as [Hq|Hclosed]; [lia| |].
    - apply (top_pop_elem _ _ _ _ Htop) in Hq as [Heq|Hq].
      + injection Heq as Heq _. lia.
      + destruct Htop as [_ Hmin]. rewrite Forall_forall in Hmin.
        specialize (Hmin _ Hq). unfold entry_ltb in Hmin. simpl in Hmin.
        apply orb_false_iff in Hmin as [Hmin _]. apply Z.ltb_ge in Hmin. lia.
    - specialize (Hclosed (w, k) Hedge). simpl in Hclosed. lia. }
  intros c Hc. destruct (decide (c < dist !!! u)%Z) as [Hlt|]; [|lia].
  specialize (Hbelow u c Hc Hlt). lia.
Qed.

Lemma stale_step dist pq d u pq' :
  dij_inv adj n src dist pq →
  pq_top_pop pq (d, u) pq' →
  (dist !!! u < d)%Z →
  dij_inv adj n src dist pq'.
Proof.
  intros [Hlen Hwalk Hqueue Hpending Hsource] Htop Hstale.
  split; try done.
  - intros e He. apply Hqueue, (top_pop_elem _ _ _ _ Htop). by right.
  - intros u' Hu' Hfin. destruct (Hpending u' Hu' Hfin) as [Hq|Hclosed]; [|by right].
    apply (top_pop_elem _ _ _ _ Htop) in Hq as [Heq|Hq]; [|by left].
    injection Heq as Heq ->. lia.
Qed.

Lemma insert_le (dist : list Z) v x w :
  (x ≤ dist !!! v)%Z → (<[v := x]> dist !!! w ≤ dist !!! w)%Z.
Proof.
  intros Hx. rewrite list_lookup_total_insert. case_decide as Hvw; [|lia].
  destruct Hvw as [-> _]. done.
Qed.

(** The loop over the row of [u]. *)
Lemma relax_step u du edges : ∀ done dist pq,
  min_cost adj src u du →
  row adj u = done ++ edges →
  relax_inv adj n src u du dist pq done →
  relax_inv adj n src u du
    (relax u edges dist pq).1 (relax u edges dist pq).2 (row adj u).
Proof.
  induction edges as [|[v k] rest IH]; intros done dist pq Hmin Hrow Hinv.
  - rewrite app_nil_r in Hrow. simpl. by rewrite Hrow.
  - assert ((v, k) ∈ row adj u) as Hedge.
    { rewrite Hrow, elem_of_app. right. apply list_elem_of_here. }
    pose proof (Htargets u (v, k) Hedge) as Hv. simpl in Hv.
    pose proof (nonneg_row adj u (v, k) Hnonneg Hedge) as Hk. simpl in Hk.
    pose proof (Hfit u du (v, k) Hmin Hedge) as Hsum. simpl in Hsum.
    pose proof (walk_nonneg adj src u du Hnonneg (proj1 Hmin)) as Hdu.
    destruct Hinv as [Hlen Hwalk Hqueue Hpending Hsource Hcurrent Hdone].
    simpl. rewrite Hcurrent, wrap_small by (unfold INT_MAX in Hsum; lia).
    assert (row adj u = (done ++ [(v, k)]) ++ rest) as Hrow'
      by (by rewrite <- app_assoc).
    destruct (du + k <? dist !!! v)%Z eqn:Hless.
    + apply Z.ltb_lt in Hless.
      assert (v ≠ u) as Hvu by (intros ->; lia).
      assert (v ≠ src) as Hvs by (intros ->; lia).
      assert (<[v := (du + k)%Z]> dist !!! v = (du + k)%Z) as Hnew
        by (apply list_lookup_total_insert_eq; lia).
      assert (∀ w, (<[v := (du + k)%Z]> dist !!! w ≤ dist !!! w)%Z) as Hmono
        by (intros w; apply insert_le; lia).
      apply (IH (done ++ [(v, k)])); [done..|]. split.
      * by rewrite length_insert.
      * intros w Hw. destruct (decide (w = v)) as [->|Hne].
        -- right. rewrite Hnew. split; [|done].
           apply (walk_step adj src u v du k); [apply Hmin|done].
        -- rewrite list_lookup_total_insert_ne by done. by apply Hwalk.
      * intros e [->|He]%elem_of_cons; simpl.
        -- rewrite Hnew. split_and!; [done|lia|done].
        -- destruct (Hqueue e He) as (? & ? & ?). split_and!; [done| |done].
           specialize (Hmono e.2). lia.
      * intros u' Hu' Hfin. destruct (decide (u' = v)) as [->|Hne].
        -- left. rewrite Hnew. apply list_elem_of_here.
        -- rewrite list_lookup_total_insert_ne in Hfin |- * by done.
           destruct (Hpending u' Hu' Hfin) as [Hq|[Hclosed|Hcur]].
           ++ left. by apply list_elem_of_further.
           ++ right. left. intros p Hp. specialize (Hclosed p Hp).
              rewrite (list_lookup_total_insert_ne dist v u') by done.
              specialize (Hmono p.1). lia.
           ++ right. by right.
      * by rewrite list_lookup_total_insert_ne.
      * by rewrite list_lookup_total_insert_ne.
      * intros p [Hp|Hp%list_elem_of_singleton]%elem_of_app.
        -- specialize (Hdone p Hp). specialize (Hmono p.1). lia.
        -- subst p. simpl. rewrite Hnew. lia.
    + apply Z.ltb_ge in Hless.
      apply (IH (done ++ [(v, k)])); [done..|]. split; try done.
      intros p [Hp|Hp%list_elem_of_singleton]%elem_of_app; [by apply Hdone|].
      subst p. simpl. lia.
Qed.

Lemma relax_pop dist pq d u pq' :
  dij_inv adj n src dist pq →
  pq_top_pop pq (d, u) pq' →
  ¬ (dist !!! u < d)%Z →
  dij_inv adj n src (relax u (adj !!! u) dist pq').1 (relax u (adj !!! u) dist pq').2.
Proof.
  intros Hinv Htop Hfresh.
  destruct (pop_exact dist pq d u pq' Hinv Htop Hfresh) as [Hu Hmin].
  destruct Hinv as [Hlen Hwalk Hqueue Hpending Hsource].
  assert (relax_inv adj n src u (dist !!! u) dist pq' []) as Hstart.
  { split; try done.
    - intros e He. apply Hqueue, (top_pop_elem _ _ _ _ Htop). by right.
    - intros u' Hu' Hfin. destruct (Hpending u' Hu' Hfin) as [Hq|Hclosed].
      + apply (top_pop_elem _ _ _ _ Htop) in Hq as [Heq|Hq]; [|by left].
        injection Heq as _ ->. right. by right.
      + right. by left.
    - intros p Hp. by apply elem_of_nil in Hp. }
  destruct (relax_step u (dist !!! u) (row adj u) [] dist pq' Hmin eq_refl Hstart)
    as [Hlen' Hwalk' Hqueue' Hpending' Hsource' Hcurrent' Hdone'].
  unfold row in *. split; try done.
  intros u' Hu' Hfin. destruct (Hpending' u' Hu' Hfin) as [Hq|[Hclosed|Hcur]].
  - by left.
  - by right.
  - subst u'. right. intros p Hp. rewrite Hcurrent'. by apply Hdone'.
Qed.

Lemma run_dij dist pq final :
  dijkstra_run adj dist pq final →
  dij_inv adj n src dist pq → dij_inv adj n src final [].
Proof.
  induction 1 as [dist|dist pq d u pq' final Htop Hstale Hrun IH
                 |dist pq d u pq' dist' pq'' final Htop Hfresh Hrelax Hrun IH];
    intros Hinv; [done|..].
  - apply IH. by eapply stale_step.
  - apply IH. pose proof (relax_pop dist pq d u pq' Hinv Htop Hfresh) as Hnext.
    by rewrite Hrelax in Hnext.
Qed.

(** When the queue is empty the distances are the least costs. *)
Lemma final_exact final :
  dij_inv adj n src final [] →
  ∀ v, v < n →
    (connected adj src v →
       min_cost adj src v (final !!! v) ∧ (final !!! v < INT_MAX)%Z)
    ∧ (¬ connected adj src v → final !!! v = INT_MAX).
Proof.
  intros [Hlen Hwalk Hqueue Hpending Hsource].
  assert (∀ u, u < n → (final !!! u < INT_MAX)%Z → closed adj final u) as Hclosed.
  { intros u Hu Hfin. destruct (Hpending u Hu Hfin) as [Hq|?]; [|done].
    by apply elem_of_nil in Hq. }
  assert (∀ v, v < n → (final !!! v ≤ INT_MAX)%Z) as Hmax.
  { intros v Hv. destruct (Hwalk v Hv) as [->|[_ ?]]; lia. }
  assert (∀ w c, walk adj src w c → (final !!! w ≤ c)%Z) as Hlower.
  { intros w c. induction 1 as [|u w c k Hwalk' IH Hedge]; [lia|].
    pose proof (nonneg_row adj u (w, k) Hnonneg Hedge) as Hk. simpl in Hk.
    pose proof (walk_below adj n src u c Htargets Hsrc Hwalk') as Hu.
    pose proof (Htargets u (w, k) Hedge) as Hw. simpl in Hw.
    destruct (decide (final !!! u < INT_MAX)%Z) as [Hfin|Hinf].
    - specialize (Hclosed u Hu Hfin (w, k) Hedge). simpl in Hclosed. lia.
    - specialize (Hmax w Hw). lia. }
  assert (∀ w c, walk adj src w c → (final !!! w < INT_MAX)%Z) as Hfinite.
  { intros w c. induction 1 as [|u w c k Hwalk' IH Hedge]; [rewrite Hsource; done|].
    pose proof (walk_below adj n src u c Htargets Hsrc Hwalk') as Hu.
    destruct (Hwalk u Hu) as [Hinf|[Hwu _]]; [lia|].
    assert (min_cost adj src u (final !!! u)) as Hmin.
    { split; [done|]. intros c' Hc'. by eapply Hlower. }
    pose proof (Hfit u _ (w, k) Hmin Hedge) as Hsum. simpl in Hsum.
    specialize (Hclosed u Hu IH (w, k) Hedge). simpl in Hclosed. lia. }
  intros v Hv. split.
  - intros [c Hc]%connected_walk.
    pose proof (Hfinite v c Hc) as Hfin. split; [|done].
    destruct (Hwalk v Hv) as [Hinf|[Hwv _]]; [lia|].
    split; [done|]. intros c' Hc'. by eapply Hlower.
  - intros Hnot. destruct (Hwalk v Hv) as [Hinf|[Hwv _]]; [done|].
    destruct Hnot. by eapply walk_connected.
Qed.

End dijkstra.

(** ** The plan that is printed *)

Section plan.

Lemma report_lookup names dist n i :
  i < n → report names dist n !! i = Some (report_line names dist i).
Proof.
  intros Hi. unfold report. by rewrite list_lookup_fmap, lookup_seq_lt.
Qed.

Lemma report_line_unreachable names dist i :
  dist !!! i = INT_MAX → report_line names dist i = Unreachable (names !!! i).
Proof. intros Hi. unfold report_line. by rewrite Hi. Qed.

Lemma report_line_eta names dist i :
  dist !!! i ≠ INT_MAX →
  report_line names dist i = Eta (names !!! i) (dist !!! i) (wrap (dist !!! i * 5)).
Proof.
  intros Hi. unfold report_line.
  destruct (dist !!! i =? INT_MAX)%Z eqn:Heq; [|done].
  by apply Z.eqb_eq in Heq.
Qed.

(** On a well-formed state the loop ends, with enough fuel. *)
Lemma shortest_distances_terminates g src :
  graph_inv g →
  ∃ final fuel0, ∀ fuel, fuel0 ≤ fuel → shortest_distances fuel g src = Some final.
Proof.
  intros Hg. unfold shortest_distances.
  set (dist := <[src := 0%Z]> (replicate (locationCount g) INT_MAX)).
  set (pq := pq_push (0%Z, src) []).
  destruct (dijkstra_loop_terminates (adjList g) (locationCount g)
              (S (2 * weight dist + length pq)) dist pq) as [final Hfinal].
  - apply (inv_targets g Hg).
  - unfold dist. by rewrite length_insert, length_replicate.
  - apply initial_range.
  - lia.
  - exists final, (S (2 * weight dist + length pq)). intros fuel Hfuel.
    by eapply dijkstra_loop_mono.
Qed.

End plan.

(** The least cost of a path to C in [far_graph] is one more than [INT_MAX]. *)
Lemma far_graph_walks v c :
  walk (adjList far_graph) 0 v c →
  (v = 0 ∧ (0 ≤ c)%Z) ∨ (v = 1 ∧ (2147483647 ≤ c)%Z) ∨ (v = 2 ∧ (2147483648 ≤ c)%Z).
Proof.
  induction 1 as [|u v c k Hwalk IH Hedge]; [left; split; [done|lia]|].
  assert (adjList far_graph
          = [[(1, 2147483647%Z)]; [(0, 2147483647%Z); (2, 1%Z)]; [(1, 1%Z)]]) as Hadj
    by (by vm_compute).
  rewrite Hadj in Hedge. unfold row in Hedge.
  destruct IH as [[-> Hc]|[[-> Hc]|[-> Hc]]]; simpl in Hedge;
    repeat (apply elem_of_cons in Hedge as [Hedge|Hedge];
            [injection Hedge as -> ->; lia|]);
    by apply elem_of_nil in Hedge.
Qed.

(** Counterexample to C8 as stated: the costs of [far_graph] are not
    negative and C has a path from A, of least cost 2147483648, yet the
    distance of C stays [INT_MAX] and C is printed as unreachable (as is B,
    whose route from A costs exactly [INT_MAX]). *)
Lemma far_route_not_exact :
  nonneg_costs (adjList far_graph)
  ∧ locationToIndex far_graph !! "A" = Some 0
  ∧ (∀ fuel, 2 ≤ fuel →
       optimizeDeliveryPlan fuel far_graph "A"
       = Some (Plan [Eta "A" 0 0; Unreachable "B"; Unreachable "C"]))
  ∧ shortest_distances 2 far_graph 0 = Some [0%Z; INT_MAX; INT_MAX]
  ∧ min_cost (adjList far_graph) 0 2 2147483648
  ∧ ¬ distances_exact (adjList far_graph) 0 (locationCount far_graph)
        [0%Z; INT_MAX; INT_MAX].
Proof.
  assert (min_cost (adjList far_graph) 0 2 2147483648) as Hmin.
  { split.
    - apply (walk_step _ 0 1 2 2147483647 1).
      + apply (walk_step _ 0 0 1 0 2147483647); [constructor|].
        vm_compute. apply list_elem_of_here.
      + vm_compute. apply list_elem_of_further, list_elem_of_here.
    - intros c Hc. apply far_graph_walks in Hc. lia. }
  split_and!.
  - vm_compute. repeat constructor; simpl; discriminate.
  - reflexivity.
  - intros fuel Hfuel. apply (optimizeDeliveryPlan_mono 2); [by vm_compute|done].
  - by vm_compute.
  - exact Hmin.
  - intros Hexact. destruct (Hexact 2) as [Hval _]; [vm_compute; lia|].
    specialize (Hval _ Hmin). vm_compute in Hval. discriminate Hval.
Qed.

(** C8, amended. From a location of the graph, with costs that are not
    negative, the query ends; a location without a path from the source keeps
    the distance [INT_MAX] and is printed as unreachable, never with a
    distance or a cost.  If moreover the least cost to any location plus the
    cost of any route leaving it stays below [INT_MAX], the final distance of
    every location with a path is the least cost of a path, and it is printed
    with that distance. *)
Theorem unreachable_reported (ms : list mutation) (start : string) (src : nat) :
  let g := run_mutations ms empty_dpo in
  locationToIndex g !! start = Some src →
  nonneg_costs (adjList g) →
  ∃ final fuel0,
    (∀ fuel, fuel0 ≤ fuel →
       shortest_distances fuel g src = Some final
       ∧ optimizeDeliveryPlan fuel g start
         = Some (Plan (report (indexToLocation g) final (locationCount g))))
    ∧ (∀ D, D < locationCount g → ¬ connected (adjList g) src D →
         final !!! D = INT_MAX
         ∧ report (indexToLocation g) final (locationCount g) !! D
           = Some (Unreachable (indexToLocation g !!! D)))
    ∧ (costs_fit (adjList g) src →
         distances_exact (adjList g) src (locationCount g) final
         ∧ ∀ v, v < locationCount g → connected (adjList g) src v →
             min_cost (adjList g) src v (final !!! v)
             ∧ report (indexToLocation g) final (locationCount g) !! v
               = Some (Eta (indexToLocation g !!! v) (final !!! v)
                           (wrap (final !!! v * 5)))).
Proof.
  intros g Hstart Hnonneg.
  assert (graph_inv g) as Hg by (apply run_mutations_inv, empty_inv).
  pose proof (inv_handle_lt g start src Hg Hstart) as Hsrc.
  pose proof (inv_targets g Hg) as Htargets.
  destruct (shortest_distances_terminates g src Hg) as (final & fuel0 & Hfuel).
  assert (dijkstra_run (adjList g)
            (<[src := 0%Z]> (replicate (locationCount g) INT_MAX))
            (pq_push (0%Z, src) []) final) as Hrun.
  { apply (dijkstra_loop_run _ fuel0). apply Hfuel. lia. }
  exists final, fuel0. split_and!.
  - intros fuel Hle. split; [by apply Hfuel|].
    unfold optimizeDeliveryPlan. rewrite Hstart, (Hfuel fuel Hle). done.
  - intros D HD Hnot.
    pose proof (run_reach (adjList g) (locationCount g) src _ _ _ Hrun
                  (reach_inv_init (adjList g) (locationCount g) src Hsrc)) as Hreach.
    assert (final !!! D = INT_MAX) as Hmax.
    { destruct (ri_dist _ _ _ _ _ Hreach D HD); [done|by destruct Hnot]. }
    split; [done|]. rewrite report_lookup by done.
    by rewrite report_line_unreachable.
  - intros Hfit.
    pose proof (run_dij (adjList g) (locationCount g) src Htargets Hsrc Hnonneg Hfit
                  _ _ _ Hrun
                  (dij_inv_init (adjList g) (locationCount g) src Hsrc)) as Hinv.
    pose proof (final_exact (adjList g) (locationCount g) src Htargets Hsrc Hnonneg Hfit
                  final Hinv) as Hexact.
    split.
    + intros v Hv. destruct (Hexact v Hv) as [Hconn Hnot]. split; [|done].
      intros d [Hwalk Hleast].
      destruct (Hconn (walk_connected _ _ _ _ Hwalk)) as [[Hwalk' Hleast'] _].
      specialize (Hleast _ Hwalk'). specialize (Hleast' _ Hwalk). lia.
    + intros v Hv Hconn. destruct (Hexact v Hv) as [Hyes _].
      destruct (Hyes Hconn) as [Hmin Hfin]. split; [done|].
      rewrite report_lookup by done. rewrite report_line_eta; [done|lia].
Qed.

(** The costs of the example fit. *)
Lemma example_costs_fit : costs_fit (adjList example_graph) 0.
Proof.
  assert (adjList example_graph
          = [[(1, 1%Z); (2, 5%Z)]; [(0, 1%Z); (2, 2%Z)]; [(1, 2%Z); (0, 5%Z)]]) as Hadj
    by (by vm_compute).
  assert (walk (adjList example_graph) 0 1 (0 + 1)) as Hw1.
  { apply (walk_step _ 0 0 1 0 1); [constructor|]. rewrite Hadj. apply list_elem_of_here. }
  assert (walk (adjList example_graph) 0 2 (0 + 5)) as Hw2.
  { apply (walk_step _ 0 0 2 0 5); [constructor|]. rewrite Hadj.
    apply list_elem_of_further, list_elem_of_here. }
  intros u d p [_ Hleast] Hp. unfold INT_MAX.
  destruct u as [|[|[|u]]].
  - specialize (Hleast _ (walk_here _ _)).
    rewrite Hadj in Hp. unfold row in Hp. simpl in Hp.
    repeat (apply elem_of_cons in Hp as [->|Hp]; [simpl; lia|]).
    by apply elem_of_nil in Hp.
  - specialize (Hleast _ Hw1).
    rewrite Hadj in Hp. unfold row in Hp. simpl in Hp.
    repeat (apply elem_of_cons in Hp as [->|Hp]; [simpl; lia|]).
    by apply elem_of_nil in Hp.
  - specialize (Hleast _ Hw2).
    rewrite Hadj in Hp. unfold row in Hp. simpl in Hp.
    repeat (apply elem_of_cons in Hp as [->|Hp]; [simpl; lia|]).
    by apply elem_of_nil in Hp.
  - rewrite Hadj in Hp. unfold row in Hp. simpl in Hp.
    rewrite lookup_total_nil in Hp. by apply elem_of_nil in Hp.
Qed.

Lemma unreachable_reported_witness :
  locationToIndex example_graph !! "A" = Some 0
  ∧ nonneg_costs (adjList example_graph)
  ∧ ∃ final, distances_exact (adjList example_graph) 0 (locationCount example_graph) final.
Proof.
  assert (locationToIndex example_graph !! "A" = Some 0) as Hsrc by reflexivity.
  assert (nonneg_costs (adjList example_graph)) as Hnonneg.
  { vm_compute. repeat constructor; simpl; discriminate. }
  split; [exact Hsrc|]. split; [exact Hnonneg|].
  destruct (unreachable_reported example_mutations "A" 0 Hsrc Hnonneg)
    as (final & fuel0 & _ & _ & Hexact).
  exists final. apply Hexact, example_costs_fit.
Defined.

(** * Further properties of the operations *)

(** ** Locations *)

Section locations.

Lemma reached_inv ms : graph_inv (run_mutations ms empty_dpo).
Proof. apply run_mutations_inv, empty_inv. Qed.

Lemma filter_all {A} (P : A → Prop) `{!∀ x, Decision (P x)} (l : list A) :
  Forall P l → filter P l = l.
Proof.
  induction 1 as [|x l Hx Hl IH]; [done|].
  rewrite filter_cons_True by done. by rewrite IH.
Qed.

Lemma delete_NoDup_filter (l : list string) : ∀ i x,
  NoDup l → l !! i = Some x → delete i l = filter (λ y, y ≠ x) l.
Proof.
  induction l as [|y l IH]; intros i x Hnd Hi; [done|].
  apply NoDup_cons in Hnd as [Hy Hnd]. destruct i as [|i]; simpl in Hi.
  - injection Hi as ->. simpl. rewrite filter_cons_False by (intros H; by apply H).
    symmetry. apply filter_all, Forall_forall.
    intros z Hz ->. done.
  - simpl. rewrite filter_cons_True.
    + f_equal. by apply IH.
    + intros ->. apply Hy. by eapply list_elem_of_lookup_2.
Qed.

Lemma filter_absent (l : list string) x : x ∉ l → filter (λ y, y ≠ x) l = l.
Proof.
  intros Hx. apply filter_all, Forall_forall. intros y Hy ->. done.
Qed.

Lemma compact_row_below idx (l : list (nat * Z)) :
  (∀ p, p ∈ l → p.1 < idx) → compact_row idx l = l.
Proof.
  intros Hl. unfold compact_row.
  rewrite filter_all.
  - rewrite <- (list_fmap_id l) at 2. apply list_fmap_ext.
    intros i p Hp. apply list_elem_of_lookup_2, Hl in Hp.
    unfold shift_entry, id. rewrite bool_decide_eq_false_2; [done|lia].
  - apply Forall_forall. intros p Hp. apply Hl in Hp. lia.
Qed.

Lemma rebuild_index_inverse g :
  graph_inv g → rebuild_index 0 (indexToLocation g) ∅ = locationToIndex g.
Proof.
  intros Hg. apply map_eq. intros name. apply option_eq. intros h.
  rewrite rebuild_index_spec by (by apply inv_names_NoDup).
  symmetry. apply (inv_index g Hg).
Qed.

Lemma not_in_names g name :
  graph_inv g → locationToIndex g !! name = None → name ∉ indexToLocation g.
Proof.
  intros Hg Hnone [i Hi]%list_elem_of_lookup_1.
  apply (inv_index g Hg) in Hi. congruence.
Qed.

End locations.

(** X1. After any sequence of mutations showLocations lists every location
    once: the list has no duplicate, it has as many names as the location
    count, and it holds exactly the names that the map knows. *)
Theorem locations_listed_once (ms : list mutation) :
  let g := run_mutations ms empty_dpo in
  NoDup (showLocations g)
  ∧ length (showLocations g) = locationCount g
  ∧ ∀ name, name ∈ showLocations g ↔ has_location g name = true.
Proof.
  intros g. pose proof (reached_inv ms) as Hg. fold g in Hg.
  split_and!.
  - by apply inv_names_NoDup.
  - apply (inv_names_length g Hg).
  - intros name. unfold has_location, showLocations.
    rewrite bool_decide_eq_true, list_elem_of_lookup. split.
    + intros [h Hh]. exists h. by apply (inv_index g Hg).
    + intros [h Hh]. exists h. by apply (inv_index g Hg).
Qed.

(** X2. addLocation of a name that is not there gives it the handle equal
    to the old count, a handle no other location has; the name comes last in
    showLocations, its row is empty, and every other name keeps its handle
    and every row its entries. *)
Theorem addLocation_fresh_handle (ms : list mutation) (name : string) :
  let g := run_mutations ms empty_dpo in
  let g' := (addLocation name g).1 in
  locationToIndex g !! name = None →
  (addLocation name g).2 = LocationAdded
  ∧ locationToIndex g' !! name = Some (locationCount g)
  ∧ (∀ other, other ≠ name →
       locationToIndex g' !! other = locationToIndex g !! other
       ∧ locationToIndex g !! other ≠ Some (locationCount g))
  ∧ showLocations g' = showLocations g ++ [name]
  ∧ locationCount g' = S (locationCount g)
  ∧ row (adjList g') (locationCount g) = []
  ∧ ∀ u, row (adjList g') u = row (adjList g) u.
Proof.
  intros g g' Hnone. pose proof (reached_inv ms) as Hg. fold g in Hg.
  assert (addLocation name g
          = (mkDPO (<[name := locationCount g]> (locationToIndex g))
                   (indexToLocation g ++ [name]) (adjList g ++ [[]])
                   (S (locationCount g)), LocationAdded)) as Hadd.
  { unfold addLocation, has_location. rewrite bool_decide_eq_false_2; [done|].
    rewrite Hnone. by intros [? ?]. }
  unfold g'. rewrite Hadd. simpl. split_and!; try done.
  - apply lookup_insert_eq.
  - intros other Hne. rewrite lookup_insert_ne by done. split; [done|].
    intros Hother. apply (inv_handle_lt g other _ Hg) in Hother. lia.
  - rewrite row_app_nil. apply row_ge. rewrite (inv_adj_length g Hg). lia.
  - intros u. apply row_app_nil.
Qed.

Lemma addLocation_fresh_handle_witness :
  locationToIndex example_graph !! "D" = None
  ∧ locationToIndex (addLocation "D" example_graph).1 !! "D"
    = Some (locationCount example_graph).
Proof.
  assert (locationToIndex example_graph !! "D" = None) as Hnone by reflexivity.
  split; [exact Hnone|].
  apply (addLocation_fresh_handle example_mutations "D" Hnone).
Defined.

(** X3. A second addLocation of the same name is refused and changes
    nothing, whatever the state. *)
Theorem addLocation_twice (g : DeliveryPathOptimizer) (name : string) :
  addLocation name (addLocation name g).1
  = ((addLocation name g).1, LocationAlreadyExists).
Proof.
  unfold addLocation at 2 3, has_location.
  case_bool_decide as Hpresent; simpl.
  - unfold addLocation, has_location. by rewrite bool_decide_eq_true_2.
  - unfold addLocation, has_location. simpl.
    rewrite bool_decide_eq_true_2; [done|]. rewrite lookup_insert_eq. by eexists.
Qed.

(** X4. removeLocation takes the name out of showLocations and keeps the
    order of the others; when the name is not there the list is the same. *)
Theorem removeLocation_listing (ms : list mutation) (name : string) :
  let g := run_mutations ms empty_dpo in
  showLocations (removeLocation name g).1
  = filter (λ other, other ≠ name) (showLocations g).
Proof.
  intros g. pose proof (reached_inv ms) as Hg. fold g in Hg.
  unfold removeLocation, showLocations.
  destruct (locationToIndex g !! name) as [idx|] eqn:Hidx; simpl.
  - apply delete_NoDup_filter; [by apply inv_names_NoDup|].
    by apply (inv_index g Hg).
  - symmetry. by apply filter_absent, not_in_names.
Qed.

(** X5. A second removeLocation of the same name reports that the location
    is not found and changes nothing. *)
Theorem removeLocation_twice (ms : list mutation) (name : string) :
  let g := run_mutations ms empty_dpo in
  removeLocation name (removeLocation name g).1
  = ((removeLocation name g).1, LocationNotFound).
Proof.
  intros g. pose proof (reached_inv ms) as Hg. fold g in Hg.
  destruct (locationToIndex g !! name) as [idx|] eqn:Hidx.
  - assert (locationToIndex (removeLocation name g).1 !! name = None) as Hgone.
    { apply eq_None_not_Some. intros [h' Hh'].
      apply (removeLocation_handles name idx g Hg Hidx) in Hh'.
      rewrite Hidx in Hh'. injection Hh' as Hh'. by destruct (unshift_ne idx h'). }
    unfold removeLocation at 1. by rewrite Hgone.
  - unfold removeLocation at 2 3. rewrite Hidx. simpl.
    unfold removeLocation. by rewrite Hidx.
Qed.

(** X6. addLocation of a new name followed by removeLocation of that name
    gives back the state exactly: map, names, rows and count. *)
Theorem add_remove_location_roundtrip (ms : list mutation) (name : string) :
  let g := run_mutations ms empty_dpo in
  locationToIndex g !! name = None →
  (removeLocation name (addLocation name g).1).1 = g.
Proof.
  intros g Hnone. pose proof (reached_inv ms) as Hg. fold g in Hg.
  unfold addLocation, has_location.
  rewrite bool_decide_eq_false_2 by (rewrite Hnone; by intros [? ?]).
  unfold removeLocation. simpl. rewrite lookup_insert_eq. simpl.
  assert (delete (locationCount g) (indexToLocation g ++ [name]) = indexToLocation g)
    as Hnames.
  { rewrite <- (inv_names_length g Hg), delete_middle. apply app_nil_r. }
  assert (delete (locationCount g) (adjList g ++ [[]]) = adjList g) as Hadj.
  { rewrite <- (inv_adj_length g Hg), delete_middle. apply app_nil_r. }
  rewrite Hnames, Hadj, (rebuild_index_inverse g Hg).
  assert (compact_row (locationCount g) <$> adjList g = adjList g) as Hrows.
  { rewrite <- (list_fmap_id (adjList g)) at 2. apply list_fmap_ext.
    intros u r Hr. unfold id. apply compact_row_below. intros p Hp.
    apply (inv_targets g Hg u). by rewrite (row_lookup _ _ _ Hr). }
  rewrite Hrows. by destruct g.
Qed.

Lemma add_remove_location_roundtrip_witness :
  locationToIndex example_graph !! "D" = None
  ∧ (removeLocation "D" (addLocation "D" example_graph).1).1 = example_graph.
Proof.
  assert (locationToIndex example_graph !! "D" = None) as Hnone by reflexivity.
  split; [exact Hnone|].
  apply (add_remove_location_roundtrip example_mutations "D" Hnone).
Defined.

(** X7. removeLocation followed by addLocation of the same name does not
    bring the routes back: the location returns with the last handle and an
    empty row, no row has an entry for it, and the count is as before. *)
Theorem remove_add_location_isolated (ms : list mutation) (name : string) (k : nat) :
  let g := run_mutations ms empty_dpo in
  let g2 := (addLocation name (removeLocation name g).1).1 in
  locationToIndex g !! name = Some k →
  (addLocation name (removeLocation name g).1).2 = LocationAdded
  ∧ locationCount g2 = locationCount g
  ∧ locationToIndex g2 !! name = Some (locationCount g - 1)
  ∧ row (adjList g2) (locationCount g - 1) = []
  ∧ ∀ u p, p ∈ row (adjList g2) u → p.1 ≠ locationCount g - 1.
Proof.
  intros g g2 Hk. pose proof (reached_inv ms) as Hg. fold g in Hg.
  set (g1 := (removeLocation name g).1).
  assert (graph_inv g1) as Hg1 by (by apply removeLocation_inv).
  pose proof (inv_handle_lt g name k Hg Hk) as Hlt.
  assert (locationCount g1 = locationCount g - 1) as Hcount.
  { unfold g1, removeLocation. rewrite Hk. simpl. lia. }
  assert (locationToIndex g1 !! name = None) as Hgone.
  { apply eq_None_not_Some. intros [h' Hh'].
    apply (removeLocation_handles name k g Hg Hk) in Hh'.
    rewrite Hk in Hh'. injection Hh' as Hh'. by destruct (unshift_ne k h'). }
  assert (addLocation name g1
          = (mkDPO (<[name := locationCount g1]> (locationToIndex g1))
                   (indexToLocation g1 ++ [name]) (adjList g1 ++ [[]])
                   (S (locationCount g1)), LocationAdded)) as Hadd.
  { unfold addLocation, has_location. rewrite bool_decide_eq_false_2; [done|].
    rewrite Hgone. by intros [? ?]. }
  unfold g2. fold g1. rewrite Hadd. simpl. split_and!.
  - done.
  - lia.
  - rewrite lookup_insert_eq. by rewrite Hcount.
  - rewrite row_app_nil. apply row_ge. rewrite (inv_adj_length g1 Hg1). lia.
  - intros u p. rewrite row_app_nil. intros Hp.
    apply (inv_targets g1 Hg1) in Hp. lia.
Qed.

Lemma remove_add_location_isolated_witness :
  locationToIndex example_graph !! "A" = Some 0
  ∧ row (adjList (addLocation "A" (removeLocation "A" example_graph).1).1)
        (locationCount example_graph - 1) = [].
Proof.
  assert (locationToIndex example_graph !! "A" = Some 0) as Hk by reflexivity.
  split; [exact Hk|].
  apply (remove_add_location_isolated example_mutations "A" 0 Hk).
Defined.

(** ** Routes *)

Section routes.

(** The two [erase] calls of [removeRoute], row by row. *)
Lemma erase_both_lookup u v (adj : list (list (nat * Z))) a :
  erase_edges v u (erase_edges u v adj) !! a
  = filter (λ p : nat * Z, ¬ (a = u ∧ p.1 = v) ∧ ¬ (a = v ∧ p.1 = u)) <$> adj !! a.
Proof.
  unfold erase_edges.
  destruct (decide (a = v)) as [->|Hav].
  - rewrite list_lookup_alter_eq. destruct (decide (v = u)) as [->|Hvu].
    + rewrite list_lookup_alter_eq. destruct (adj !! u); simpl; [|done].
      f_equal. rewrite list_filter_filter. apply list_filter_iff. intros p. tauto.
    + rewrite list_lookup_alter_ne by done.
      destruct (adj !! v); simpl; [|done]. f_equal.
      apply list_filter_iff. intros p. split; [|tauto].
      intros Hp. split; [intros [? _]; done|tauto].
  - rewrite list_lookup_alter_ne by done. destruct (decide (a = u)) as [->|Hau].
    + rewrite list_lookup_alter_eq. destruct (adj !! u); simpl; [|done]. f_equal.
      apply list_filter_iff. intros p. split; [|tauto].
      intros Hp. split; [tauto|intros [? _]; done].
    + rewrite list_lookup_alter_ne by done.
      destruct (adj !! a); simpl; [|done]. f_equal.
      symmetry. apply filter_all, Forall_forall. intros p _. tauto.
Qed.

(** The two [push_back] calls of [addRoute], row by row. *)
Lemma push_both_lookup u v c (adj : list (list (nat * Z))) a :
  push_edge v u c (push_edge u v c adj) !! a
  = (λ r, (r ++ (if decide (a = u) then [(v, c)] else []))
             ++ (if decide (a = v) then [(u, c)] else [])) <$> adj !! a.
Proof.
  unfold push_edge.
  destruct (decide (a = v)) as [->|Hav].
  - rewrite list_lookup_alter_eq. destruct (decide (v = u)) as [->|Hvu].
    + rewrite list_lookup_alter_eq. by destruct (adj !! u).
    + rewrite list_lookup_alter_ne by done.
      destruct (adj !! v); simpl; [|done]. by rewrite app_nil_r.
  - rewrite list_lookup_alter_ne by done. destruct (decide (a = u)) as [->|Hau].
    + rewrite list_lookup_alter_eq. destruct (adj !! u); simpl; [|done].
      by rewrite app_nil_r.
    + rewrite list_lookup_alter_ne by done.
      destruct (adj !! a); simpl; [|done]. by rewrite !app_nil_r.
Qed.

Lemma no_entry_symmetric adj u v :
  symmetric_adj adj → no_entry_for v (row adj u) → no_entry_for u (row adj v).
Proof.
  intros Hsym Hnone. apply Forall_forall. intros [t c] Hp Ht. simpl in Ht. subst t.
  assert (edge adj u v) as [k Hk] by (apply edge_symmetric; [done|by exists c]).
  unfold no_entry_for in Hnone. rewrite Forall_forall in Hnone.
  by apply (Hnone (v, k)).
Qed.

End routes.

(** X8. addRoute adds exactly one entry to the row of each end, duplicates
    included: the count of [(v, cost)] in the row of [u] and the count of
    [(u, cost)] in the row of [v] grow by one (by two for a route from a
    location to itself), and no other count changes. *)
Theorem addRoute_counts (ms : list mutation) (from to : string) (cost : Z) (u v : nat) :
  let g := run_mutations ms empty_dpo in
  locationToIndex g !! from = Some u →
  locationToIndex g !! to = Some v →
  ∀ a b k,
    edge_count (adjList (addRoute from to cost g).1) a b k
    = edge_count (adjList g) a b k
      + (if decide (a = u ∧ b = v ∧ k = cost) then 1 else 0)
      + (if decide (a = v ∧ b = u ∧ k = cost) then 1 else 0).
Proof.
  intros g Hu Hv a b k. pose proof (reached_inv ms) as Hg. fold g in Hg.
  unfold edge_count. rewrite (addRoute_row from to cost g u v a Hg Hu Hv).
  rewrite !count_app.
  destruct (decide (a = u)) as [Hau|Hau], (decide (a = v)) as [Hav|Hav];
    rewrite ?count_singleton; simpl;
    repeat case_decide; destruct_and?; subst; try lia; try tauto.
Qed.

Lemma addRoute_counts_witness :
  locationToIndex example_graph !! "A" = Some 0
  ∧ locationToIndex example_graph !! "B" = Some 1
  ∧ edge_count (adjList (addRoute "A" "B" 1 example_graph).1) 0 1 1
    = edge_count (adjList example_graph) 0 1 1
      + (if decide (0 = 0 ∧ 1 = 1 ∧ 1%Z = 1%Z) then 1 else 0)
      + (if decide (0 = 1 ∧ 1 = 0 ∧ 1%Z = 1%Z) then 1 else 0).
Proof.
  assert (locationToIndex example_graph !! "A" = Some 0) as Hu by reflexivity.
  assert (locationToIndex example_graph !! "B" = Some 1) as Hv by reflexivity.
  split; [exact Hu|]. split; [exact Hv|].
  apply (addRoute_counts example_mutations "A" "B" 1 0 1 Hu Hv).
Defined.

(** X9. removeRoute is idempotent: a second call with the same names
    leaves the state of the first and prints the same line, whatever the
    state. *)
Theorem removeRoute_twice (g : DeliveryPathOptimizer) (from to : string) :
  removeRoute from to (removeRoute from to g).1
  = ((removeRoute from to g).1, (removeRoute from to g).2).
Proof.
  unfold removeRoute.
  destruct (locationToIndex g !! from) as [u|] eqn:Hu; simpl.
  - destruct (locationToIndex g !! to) as [v|] eqn:Hv; simpl.
    + rewrite Hu, Hv. f_equal. f_equal.
      apply list_eq. intros a. rewrite !erase_both_lookup.
      destruct (adjList g !! a) as [r|]; [|done]. simpl. f_equal.
      rewrite list_filter_filter. apply list_filter_iff. intros p. tauto.
    + by rewrite Hu, Hv.
  - by rewrite Hu.
Qed.

(** X10. removeRoute between two locations that have no route is accepted
    and changes nothing. *)
Theorem removeRoute_without_route (ms : list mutation) (from to : string) (u v : nat) :
  let g := run_mutations ms empty_dpo in
  locationToIndex g !! from = Some u →
  locationToIndex g !! to = Some v →
  no_entry_for v (row (adjList g) u) →
  removeRoute from to g = (g, RouteRemoved).
Proof.
  intros g Hu Hv Hnone. pose proof (reached_inv ms) as Hg. fold g in Hg.
  pose proof (no_entry_symmetric _ u v (inv_symmetric g Hg) Hnone) as Hnone'.
  unfold removeRoute. rewrite Hu, Hv. f_equal.
  assert (erase_edges v u (erase_edges u v (adjList g)) = adjList g) as Hadj.
  { apply list_eq. intros a. rewrite erase_both_lookup.
    destruct (adjList g !! a) as [r|] eqn:Hr; [|done]. simpl. f_equal.
    apply filter_all, Forall_forall. intros p Hp.
    rewrite <- (row_lookup _ _ _ Hr) in Hp.
    unfold no_entry_for in Hnone, Hnone'. rewrite Forall_forall in Hnone, Hnone'.
    split; intros [-> Hp1].
    - by apply (Hnone p).
    - by apply (Hnone' p). }
  rewrite Hadj. by destruct g.
Qed.

Lemma removeRoute_without_route_witness :
  locationToIndex (run_mutations [AddLocation "A"; AddLocation "B"] empty_dpo) !! "A"
  = Some 0
  ∧ removeRoute "A" "B" (run_mutations [AddLocation "A"; AddLocation "B"] empty_dpo)
    = (run_mutations [AddLocation "A"; AddLocation "B"] empty_dpo, RouteRemoved).
Proof.
  assert (locationToIndex (run_mutations [AddLocation "A"; AddLocation "B"] empty_dpo)
            !! "A" = Some 0) as Hu by reflexivity.
  split; [exact Hu|].
  apply (removeRoute_without_route [AddLocation "A"; AddLocation "B"] "A" "B" 0 1 Hu).
  - reflexivity.
  - vm_compute. constructor.
Defined.

(** X11. removeRoute undoes every addRoute between the two names at once:
    after addRoute, removeRoute leaves the state that removeRoute alone
    leaves, whatever the state and the cost. *)
Theorem add_remove_route (g : DeliveryPathOptimizer) (from to : string) (cost : Z) :
  (removeRoute from to (addRoute from to cost g).1).1 = (removeRoute from to g).1.
Proof.
  unfold addRoute, removeRoute.
  destruct (locationToIndex g !! from) as [u|] eqn:Hu; simpl; [|by rewrite Hu].
  destruct (locationToIndex g !! to) as [v|] eqn:Hv; simpl; [|by rewrite Hu, Hv].
  rewrite Hu, Hv. simpl. f_equal.
  apply list_eq. intros a. rewrite !erase_both_lookup, push_both_lookup.
  destruct (adjList g !! a) as [r|]; [|done]. simpl. f_equal.
  rewrite !filter_app.
  destruct (decide (a = u)) as [Hau|Hau], (decide (a = v)) as [Hav|Hav];
    rewrite ?filter_singleton_False by (simpl; tauto);
    rewrite ?filter_nil, ?app_nil_r; done.
Qed.

(** ** The plan *)

Section plans.

Lemma names_of_seq (names : list string) :
  (λ i, names !!! i) <$> seq 0 (length names) = names.
Proof.
  apply list_eq. intros i. rewrite list_lookup_fmap.
  destruct (decide (i < length names)) as [Hi|Hi].
  - rewrite lookup_seq_lt by done. simpl.
    by rewrite (list_lookup_lookup_total_lt names i Hi).
  - rewrite lookup_seq_ge by lia. simpl. symmetry. apply lookup_ge_None. lia.
Qed.

Lemma line_name_report names dist i : line_name (report_line names dist i) = names !!! i.
Proof. unfold report_line. by destruct (_ =? _)%Z. Qed.

Lemma wrap_exact z : wrap z = z ↔ (-2147483648 ≤ z < 2147483648)%Z.
Proof.
  split; [|apply wrap_small].
  intros Hz. pose proof (wrap_range z) as Hr. rewrite Hz in Hr.
  unfold in_int_range, INT_MAX in Hr. lia.
Qed.

(** What the loop leaves on a well-formed state, for a source of the graph. *)
Lemma shortest_distances_spec g src :
  graph_inv g → src < locationCount g →
  ∃ final fuel0,
    (∀ fuel, fuel0 ≤ fuel → shortest_distances fuel g src = Some final)
    ∧ reach_inv (adjList g) (locationCount g) src final []
    ∧ (nonneg_costs (adjList g) → costs_fit (adjList g) src →
       dij_inv (adjList g) (locationCount g) src final []).
Proof.
  intros Hg Hsrc.
  destruct (shortest_distances_terminates g src Hg) as (final & fuel0 & Hfuel).
  assert (dijkstra_run (adjList g)
            (<[src := 0%Z]> (replicate (locationCount g) INT_MAX))
            (pq_push (0%Z, src) []) final) as Hrun.
  { apply (dijkstra_loop_run _ fuel0). apply Hfuel. lia. }
  exists final, fuel0. split_and!; [done| |].
  - exact (run_reach _ _ _ _ _ _ Hrun (reach_inv_init _ _ _ Hsrc)).
  - intros Hnonneg Hfit.
    exact (run_dij _ _ _ (inv_targets g Hg) Hsrc Hnonneg Hfit _ _ _ Hrun
             (dij_inv_init _ _ _ Hsrc)).
Qed.

Lemma shortest_distances_reach fuel g src final :
  graph_inv g → src < locationCount g →
  shortest_distances fuel g src = Some final →
  reach_inv (adjList g) (locationCount g) src final [].
Proof.
  intros Hg Hsrc Hrun. apply dijkstra_loop_run in Hrun.
  exact (run_reach _ _ _ _ _ _ Hrun (reach_inv_init _ _ _ Hsrc)).
Qed.

Lemma walk_app adj a b d c c' :
  walk adj a b c → walk adj b d c' → walk adj a d (c + c').
Proof.
  intros Hab. induction 1 as [|u v c' k Hbu IH Hedge].
  - by rewrite Z.add_0_r.
  - rewrite Z.add_assoc. by econstructor.
Qed.

Lemma walk_reverse adj a b c :
  symmetric_adj adj → walk adj a b c → walk adj b a c.
Proof.
  intros Hsym. induction 1 as [|u v c k Hau IH Hedge]; [constructor|].
  assert ((u, k) ∈ row adj v) as Hback.
  { assert (0 < edge_count adj u v k) as Hpos.
    { unfold edge_count.
      assert ((v, k) ∈ filter (λ p, p = (v, k)) (row adj u)) as Hin
        by (by apply list_elem_of_filter).
      destruct (filter _ (row adj u)); [by apply elem_of_nil in Hin|simpl; lia]. }
    rewrite Hsym in Hpos. unfold edge_count in Hpos.
    destruct (filter (λ p, p = (u, k)) (row adj v)) as [|p l] eqn:Hf;
      [simpl in Hpos; lia|].
    assert (p ∈ filter (λ p, p = (u, k)) (row adj v)) as Hp
      by (rewrite Hf; apply list_elem_of_here).
    by apply list_elem_of_filter in Hp as [-> Hp]. }
  replace (c + k)%Z with (k + c)%Z by lia.
  eapply walk_app; [|exact IH].
  replace k with (0 + k)%Z by lia. econstructor; [constructor|done].
Qed.

Lemma min_cost_reverse adj a b d :
  symmetric_adj adj → min_cost adj a b d → min_cost adj b a d.
Proof.
  intros Hsym [Hwalk Hleast]. split; [by apply walk_reverse|].
  intros c Hc. by apply Hleast, walk_reverse.
Qed.

End plans.

(** X12. On every state the mutations can reach, optimizeDeliveryPlan ends
    whatever the costs, negative ones included (sums taken in 32 bits): some
    amount of fuel makes it print its result, and so does any larger one. *)
Theorem plan_terminates (ms : list mutation) (start : string) :
  ∃ fuel0 r, ∀ fuel, fuel0 ≤ fuel →
    optimizeDeliveryPlan fuel (run_mutations ms empty_dpo) start = Some r.
Proof.
  pose proof (reached_inv ms) as Hg. set (g := run_mutations ms empty_dpo) in *.
  unfold optimizeDeliveryPlan.
  destruct (locationToIndex g !! start) as [src|] eqn:Hsrc.
  - destruct (shortest_distances_terminates g src Hg) as (final & fuel0 & Hfuel).
    exists fuel0, (Plan (report (indexToLocation g) final (locationCount g))).
    intros fuel Hle. by rewrite (Hfuel fuel Hle).
  - by exists 0, PlanStartNotFound.
Qed.

(** X13. The plan has one line for every location, in the order of
    showLocations. *)
Theorem plan_lists_locations (ms : list mutation) (fuel : nat) (start : string)
  (lines : list plan_line) :
  let g := run_mutations ms empty_dpo in
  optimizeDeliveryPlan fuel g start = Some (Plan lines) →
  line_name <$> lines = showLocations g.
Proof.
  intros g Hplan. pose proof (reached_inv ms) as Hg. fold g in Hg.
  unfold optimizeDeliveryPlan in Hplan.
  destruct (locationToIndex g !! start) as [src|]; [|done].
  destruct (shortest_distances fuel g src) as [final|]; [|done].
  injection Hplan as <-. unfold report, showLocations.
  rewrite <- list_fmap_compose, <- (inv_names_length g Hg).
  rewrite <- (names_of_seq (indexToLocation g)) at 3.
  apply list_fmap_ext. intros i j _. simpl. apply line_name_report.
Qed.

Lemma plan_lists_locations_witness :
  optimizeDeliveryPlan 5 example_graph "A"
  = Some (Plan [Eta "A" 0 0; Eta "B" 1 5; Eta "C" 3 15])
  ∧ line_name <$> [Eta "A" 0 0; Eta "B" 1 5; Eta "C" 3 15] = showLocations example_graph.
Proof.
  assert (optimizeDeliveryPlan 5 example_graph "A"
          = Some (Plan [Eta "A" 0 0; Eta "B" 1 5; Eta "C" 3 15])) as Hplan
    by (by vm_compute).
  split; [exact Hplan|].
  apply (plan_lists_locations example_mutations 5 "A" _ Hplan).
Defined.

(** X14. A line of the plan that shows a distance [d] shows the cost
    [5 * d] exactly when [d] is between -429496729 and 429496729; beyond that
    the product does not fit 32 bits and the cost shown is another number. *)
Theorem plan_cost_exact (ms : list mutation) (fuel : nat) (start : string)
  (lines : list plan_line) (i : nat) (name : string) (d c : Z) :
  let g := run_mutations ms empty_dpo in
  optimizeDeliveryPlan fuel g start = Some (Plan lines) →
  lines !! i = Some (Eta name d c) →
  c = wrap (d * 5) ∧ in_int_range d ∧ d ≠ INT_MAX
  ∧ (c = (d * 5)%Z ↔ (-429496729 ≤ d ≤ 429496729)%Z).
Proof.
  intros g Hplan Hline. pose proof (reached_inv ms) as Hg. fold g in Hg.
  unfold optimizeDeliveryPlan in Hplan.
  destruct (locationToIndex g !! start) as [src|] eqn:Hsrc; [|done].
  destruct (shortest_distances fuel g src) as [final|] eqn:Hfinal; [|done].
  injection Hplan as <-.
  pose proof (inv_handle_lt g start src Hg Hsrc) as Hlt.
  pose proof (shortest_distances_reach fuel g src final Hg Hlt Hfinal) as Hreach.
  unfold report in Hline. rewrite list_lookup_fmap in Hline.
  destruct (seq 0 (locationCount g) !! i) as [j|] eqn:Hj; [|done].
  apply lookup_seq in Hj as [-> Hi]. simpl in Hline. injection Hline as Hline.
  unfold report_line in Hline.
  destruct (final !!! i =? INT_MAX)%Z eqn:Hmax; [done|].
  apply Z.eqb_neq in Hmax. injection Hline as _ <- <-.
  assert (in_int_range (final !!! i)) as Hrange.
  { apply Forall_lookup_total_1; [apply Hreach|].
    rewrite (ri_length _ _ _ _ _ Hreach). done. }
  split_and!; [done..|].
  rewrite wrap_exact. lia.
Qed.

Lemma plan_cost_exact_witness :
  optimizeDeliveryPlan 5 example_graph "A"
  = Some (Plan [Eta "A" 0 0; Eta "B" 1 5; Eta "C" 3 15])
  ∧ (15%Z = (3 * 5)%Z ↔ (-429496729 ≤ 3 ≤ 429496729)%Z).
Proof.
  assert (optimizeDeliveryPlan 5 example_graph "A"
          = Some (Plan [Eta "A" 0 0; Eta "B" 1 5; Eta "C" 3 15])) as Hplan
    by (by vm_compute).
  split; [exact Hplan|].
  apply (plan_cost_exact example_mutations 5 "A" _ 2 "C" 3 15 Hplan).
  reflexivity.
Defined.

Section exact_plans.

Lemma row_in_range (adj : list (list (nat * Z))) u p : p ∈ row adj u → u < length adj.
Proof.
  intros Hp. destruct (decide (u < length adj)) as [|Hge]; [done|].
  rewrite row_ge in Hp by lia. by apply elem_of_nil in Hp.
Qed.

Lemma min_cost_unique adj src v d d' :
  min_cost adj src v d → min_cost adj src v d' → d = d'.
Proof.
  intros [Hw Hl] [Hw' Hl']. specialize (Hl _ Hw'). specialize (Hl' _ Hw). lia.
Qed.

(** The costs of the example fit from B as well. *)
Lemma example_costs_fit_B : costs_fit (adjList example_graph) 1.
Proof.
  assert (adjList example_graph
          = [[(1, 1%Z); (2, 5%Z)]; [(0, 1%Z); (2, 2%Z)]; [(1, 2%Z); (0, 5%Z)]]) as Hadj
    by (by vm_compute).
  assert (walk (adjList example_graph) 1 0 (0 + 1)) as Hw0.
  { apply (walk_step _ 1 1 0 0 1); [constructor|]. rewrite Hadj. apply list_elem_of_here. }
  assert (walk (adjList example_graph) 1 2 (0 + 2)) as Hw2.
  { apply (walk_step _ 1 1 2 0 2); [constructor|]. rewrite Hadj.
    apply list_elem_of_further, list_elem_of_here. }
  intros u d p [_ Hleast] Hp. unfold INT_MAX.
  destruct u as [|[|[|u]]].
  - specialize (Hleast _ Hw0).
    rewrite Hadj in Hp. unfold row in Hp. simpl in Hp.
    repeat (apply elem_of_cons in Hp as [->|Hp]; [simpl; lia|]).
    by apply elem_of_nil in Hp.
  - specialize (Hleast _ (walk_here _ _)).
    rewrite Hadj in Hp. unfold row in Hp. simpl in Hp.
    repeat (apply elem_of_cons in Hp as [->|Hp]; [simpl; lia|]).
    by apply elem_of_nil in Hp.
  - specialize (Hleast _ Hw2).
    rewrite Hadj in Hp. unfold row in Hp. simpl in Hp.
    repeat (apply elem_of_cons in Hp as [->|Hp]; [simpl; lia|]).
    by apply elem_of_nil in Hp.
  - rewrite Hadj in Hp. unfold row in Hp. simpl in Hp.
    rewrite lookup_total_nil in Hp. by apply elem_of_nil in Hp.
Qed.

Lemma example_nonneg : nonneg_costs (adjList example_graph).
Proof. vm_compute. repeat constructor; simpl; discriminate. Qed.

End exact_plans.

(** X15. With costs that are not negative and fit, the source is printed
    with distance 0 and cost 0, no distance is negative, and the distances
    obey every route: a location is never farther than a neighbour with a
    distance plus the cost of the route between them. *)
Theorem plan_source_and_routes (ms : list mutation) (start : string) (src : nat) :
  let g := run_mutations ms empty_dpo in
  locationToIndex g !! start = Some src →
  nonneg_costs (adjList g) →
  costs_fit (adjList g) src →
  ∃ final fuel0,
    (∀ fuel, fuel0 ≤ fuel → shortest_distances fuel g src = Some final)
    ∧ final !!! src = 0%Z
    ∧ report (indexToLocation g) final (locationCount g) !! src = Some (Eta start 0 0)
    ∧ (∀ v, v < locationCount g → (0 ≤ final !!! v ≤ INT_MAX)%Z)
    ∧ (∀ u p, p ∈ row (adjList g) u → (final !!! u < INT_MAX)%Z →
         (final !!! p.1 ≤ final !!! u + p.2)%Z ∧ (final !!! p.1 < INT_MAX)%Z).
Proof.
  intros g Hstart Hnonneg Hfit. pose proof (reached_inv ms) as Hg. fold g in Hg.
  pose proof (inv_handle_lt g start src Hg Hstart) as Hsrc.
  destruct (shortest_distances_spec g src Hg Hsrc) as (final & fuel0 & Hfuel & _ & Hdij).
  specialize (Hdij Hnonneg Hfit).
  pose proof (final_exact _ _ _ (inv_targets g Hg) Hsrc Hnonneg Hfit final Hdij) as Hexact.
  destruct Hdij as [Hlen Hwalk Hqueue Hpending Hsource].
  exists final, fuel0. split_and!; [done..| | |].
  - rewrite report_lookup by done. unfold report_line. rewrite Hsource. simpl.
    apply (inv_index g Hg) in Hstart.
    by rewrite (list_lookup_total_correct _ _ _ Hstart).
  - intros v Hv. destruct (Hwalk v Hv) as [->|[Hw Hfin]]; [unfold INT_MAX; lia|].
    pose proof (walk_nonneg _ _ _ _ Hnonneg Hw). lia.
  - intros u p Hp Hfin.
    assert (u < locationCount g) as Hu.
    { rewrite <- (inv_adj_length g Hg). by eapply row_in_range. }
    destruct (Hpending u Hu Hfin) as [Hq|Hclosed]; [by apply elem_of_nil in Hq|].
    specialize (Hclosed p Hp). split; [done|].
    destruct (Hwalk u Hu) as [Hinf|[Hw _]]; [lia|].
    destruct (Hexact u Hu) as [Hyes _].
    destruct (Hyes (walk_connected _ _ _ _ Hw)) as [Hmin _].
    pose proof (Hfit u _ p Hmin Hp). lia.
Qed.

Lemma plan_source_and_routes_witness :
  locationToIndex example_graph !! "A" = Some 0
  ∧ nonneg_costs (adjList example_graph)
  ∧ costs_fit (adjList example_graph) 0
  ∧ ∃ final : list Z, final !!! 0 = 0%Z.
Proof.
  assert (locationToIndex example_graph !! "A" = Some 0) as Hsrc by reflexivity.
  split; [exact Hsrc|]. split; [exact example_nonneg|]. split; [exact example_costs_fit|].
  destruct (plan_source_and_routes example_mutations "A" 0 Hsrc
              example_nonneg example_costs_fit) as (final & _ & _ & Hzero & _).
  by exists final.
Defined.

(** X16. Distances are symmetric: with costs that are not negative and fit
    from both ends, the distance the query from A gives to B is the distance
    the query from B gives to A. *)
Theorem distance_symmetric (ms : list mutation) (from to : string) (a b : nat) :
  let g := run_mutations ms empty_dpo in
  locationToIndex g !! from = Some a →
  locationToIndex g !! to = Some b →
  nonneg_costs (adjList g) →
  costs_fit (adjList g) a →
  costs_fit (adjList g) b →
  ∃ final_a final_b fuel0,
    (∀ fuel, fuel0 ≤ fuel →
       shortest_distances fuel g a = Some final_a
       ∧ shortest_distances fuel g b = Some final_b)
    ∧ final_a !!! b = final_b !!! a.
Proof.
  intros g Ha Hb Hnonneg Hfit_a Hfit_b.
  pose proof (reached_inv ms) as Hg. fold g in Hg.
  pose proof (inv_handle_lt g from a Hg Ha) as Halt.
  pose proof (inv_handle_lt g to b Hg Hb) as Hblt.
  pose proof (inv_symmetric g Hg) as Hsym.
  destruct (shortest_distances_spec g a Hg Halt) as (fa & fuel_a & Hfuel_a & _ & Hdij_a).
  destruct (shortest_distances_spec g b Hg Hblt) as (fb & fuel_b & Hfuel_b & _ & Hdij_b).
  specialize (Hdij_a Hnonneg Hfit_a). specialize (Hdij_b Hnonneg Hfit_b).
  pose proof (final_exact _ _ _ (inv_targets g Hg) Halt Hnonneg Hfit_a fa Hdij_a b Hblt)
    as [Hyes_a Hno_a].
  pose proof (final_exact _ _ _ (inv_targets g Hg) Hblt Hnonneg Hfit_b fb Hdij_b a Halt)
    as [Hyes_b Hno_b].
  exists fa, fb, (fuel_a `max` fuel_b). split.
  - intros fuel Hle. split; [apply Hfuel_a|apply Hfuel_b]; lia.
  - destruct (di_walk _ _ _ _ _ Hdij_a b Hblt) as [Hinf|[Hw _]].
    + rewrite Hinf. symmetry. apply Hno_b. intros Hconn.
      apply connected_symmetric in Hconn; [|done].
      destruct (Hyes_a Hconn) as [_ Hfin]. lia.
    + pose proof (walk_connected _ _ _ _ Hw) as Hconn.
      destruct (Hyes_a Hconn) as [Hmin_a _].
      destruct (Hyes_b (connected_symmetric _ _ _ Hsym Hconn)) as [Hmin_b _].
      apply (min_cost_reverse _ _ _ _ Hsym) in Hmin_b.
      by eapply min_cost_unique.
Qed.

Lemma distance_symmetric_witness :
  locationToIndex example_graph !! "A" = Some 0
  ∧ locationToIndex example_graph !! "B" = Some 1
  ∧ ∃ final_a final_b : list Z, final_a !!! 1 = final_b !!! 0.
Proof.
  assert (locationToIndex example_graph !! "A" = Some 0) as Ha by reflexivity.
  assert (locationToIndex example_graph !! "B" = Some 1) as Hb by reflexivity.
  split; [exact Ha|]. split; [exact Hb|].
  destruct (distance_symmetric example_mutations "A" "B" 0 1 Ha Hb
              example_nonneg example_costs_fit example_costs_fit_B)
    as (fa & fb & _ & _ & Heq).
  by exists fa, fb.
Defined.

(** ** The traversal *)

Section traversal.

Lemma bfs_loop_prefix adj fuel : ∀ visited q out final,
  bfs_loop fuel adj visited q out = Some final → ∃ rest, final = out ++ rest.
Proof.
  induction fuel as [|fuel IH]; intros visited q out final Hloop; [done|].
  simpl in Hloop. destruct q as [|curr q].
  - injection Hloop as <-. exists []. by rewrite app_nil_r.
  - destruct (visit_neighbors (adj !!! curr) visited q) as [visited' q'].
    destruct (IH _ _ _ _ Hloop) as [rest ->].
    exists (curr :: rest). by rewrite <- app_assoc.
Qed.

(** What the traversal delivers on a well-formed state. *)
Lemma simulate_component g start src fuel :
  graph_inv g →
  locationToIndex g !! start = Some src →
  locationCount g < fuel →
  ∃ order,
    bfs_order fuel g src = Some order
    ∧ simulateDelivery fuel g start
      = Some (Deliveries ((λ h, indexToLocation g !!! h) <$> order))
    ∧ (∀ h, h ∈ order ↔ connected (adjList g) src h)
    ∧ (∀ name h, locationToIndex g !! name = Some h →
         name ∈ (λ h, indexToLocation g !!! h) <$> order ↔ connected (adjList g) src h).
Proof.
  intros Hg Hsrc Hfuel.
  pose proof (inv_handle_lt g start src Hg Hsrc) as Hlt.
  pose proof (inv_targets g Hg) as Htargets.
  destruct (bfs_loop_complete (adjList g) (locationCount g) src Htargets fuel
              _ [src] [] (bfs_inv_init (adjList g) (locationCount g) src Hlt))
    as (order & Hrun & Hnd & Hconn); [simpl; lia|].
  exists order. split_and!; [done| |done|].
  - unfold simulateDelivery. rewrite Hsrc. unfold bfs_order. by rewrite Hrun.
  - intros name h Hh. rewrite list_elem_of_fmap. split.
    + intros (h' & -> & Hh'). apply Hconn in Hh' as Hc.
      assert (indexToLocation g !! h' = Some (indexToLocation g !!! h')) as Hname.
      { apply list_lookup_lookup_total_lt. rewrite (inv_names_length g Hg).
        by eapply connected_below. }
      apply (inv_index g Hg) in Hname. by assert (h = h') as -> by congruence.
    + intros Hc. exists h. split; [|by apply Hconn].
      apply (inv_index g Hg) in Hh. by rewrite (list_lookup_total_correct _ _ _ Hh).
Qed.

End traversal.

(** X17. The traversal delivers to the starting location first. *)
Theorem bfs_source_first (ms : list mutation) (start : string) (src fuel : nat) :
  let g := run_mutations ms empty_dpo in
  locationToIndex g !! start = Some src →
  locationCount g < fuel →
  ∃ rest, simulateDelivery fuel g start = Some (Deliveries (start :: rest)).
Proof.
  intros g Hsrc Hfuel. pose proof (reached_inv ms) as Hg. fold g in Hg.
  destruct (simulate_component g start src fuel Hg Hsrc Hfuel)
    as (order & Horder & Hsim & _).
  unfold bfs_order in Horder. destruct fuel as [|fuel]; [lia|].
  simpl in Horder.
  destruct (visit_neighbors (adjList g !!! src) _ []) as [visited' q'].
  destruct (bfs_loop_prefix _ _ _ _ _ _ Horder) as [rest ->].
  exists ((λ h, indexToLocation g !!! h) <$> rest). rewrite Hsim. simpl.
  apply (inv_index g Hg) in Hsrc.
  by rewrite (list_lookup_total_correct _ _ _ Hsrc).
Qed.

Lemma bfs_source_first_witness :
  locationToIndex example_graph !! "B" = Some 1
  ∧ locationCount example_graph < 4
  ∧ ∃ rest, simulateDelivery 4 example_graph "B" = Some (Deliveries ("B" :: rest)).
Proof.
  assert (locationToIndex example_graph !! "B" = Some 1) as Hsrc by reflexivity.
  assert (locationCount example_graph < 4) as Hfuel by (vm_compute; lia).
  split; [exact Hsrc|]. split; [exact Hfuel|].
  apply (bfs_source_first example_mutations "B" 1 4 Hsrc Hfuel).
Defined.

(** X18. Deliveries are mutual: the traversal from A delivers to B exactly
    when the traversal from B delivers to A. *)
Theorem bfs_mutual (ms : list mutation) (from to : string) (a b fuel : nat) :
  let g := run_mutations ms empty_dpo in
  locationToIndex g !! from = Some a →
  locationToIndex g !! to = Some b →
  locationCount g < fuel →
  ∃ names_a names_b,
    simulateDelivery fuel g from = Some (Deliveries names_a)
    ∧ simulateDelivery fuel g to = Some (Deliveries names_b)
    ∧ (to ∈ names_a ↔ from ∈ names_b).
Proof.
  intros g Ha Hb Hfuel. pose proof (reached_inv ms) as Hg. fold g in Hg.
  pose proof (inv_symmetric g Hg) as Hsym.
  destruct (simulate_component g from a fuel Hg Ha Hfuel) as (oa & _ & Hsa & _ & Hna).
  destruct (simulate_component g to b fuel Hg Hb Hfuel) as (ob & _ & Hsb & _ & Hnb).
  eexists _, _. split_and!; [exact Hsa|exact Hsb|].
  rewrite (Hna to b Hb), (Hnb from a Ha).
  split; by apply connected_symmetric.
Qed.

Lemma bfs_mutual_witness :
  locationToIndex example_graph !! "A" = Some 0
  ∧ locationToIndex example_graph !! "C" = Some 2
  ∧ locationCount example_graph < 4
  ∧ ∃ names_a names_b,
      simulateDelivery 4 example_graph "A" = Some (Deliveries names_a)
      ∧ simulateDelivery 4 example_graph "C" = Some (Deliveries names_b)
      ∧ ("C" ∈ names_a ↔ "A" ∈ names_b).
Proof.
  assert (locationToIndex example_graph !! "A" = Some 0) as Ha by reflexivity.
  assert (locationToIndex example_graph !! "C" = Some 2) as Hb by reflexivity.
  assert (locationCount example_graph < 4) as Hfuel by (vm_compute; lia).
  split; [exact Ha|]. split; [exact Hb|]. split; [exact Hfuel|].
  apply (bfs_mutual example_mutations "A" "C" 0 2 4 Ha Hb Hfuel).
Defined.

(** X19. The two queries agree: from the same start, a location the
    traversal does not deliver to is printed as unreachable by the plan,
    whatever the costs; with costs that are not negative and fit, a location
    the traversal delivers to is printed with a distance. *)
Theorem traversal_agrees_with_plan (ms : list mutation) (start : string) (src : nat) :
  let g := run_mutations ms empty_dpo in
  locationToIndex g !! start = Some src →
  ∃ fuel0, ∀ fuel, fuel0 ≤ fuel →
    ∃ names lines,
      simulateDelivery fuel g start = Some (Deliveries names)
      ∧ optimizeDeliveryPlan fuel g start = Some (Plan lines)
      ∧ ∀ i other, indexToLocation g !! i = Some other →
          (other ∉ names → lines !! i = Some (Unreachable other))
          ∧ (nonneg_costs (adjList g) → costs_fit (adjList g) src →
             other ∈ names → ∃ d c, lines !! i = Some (Eta other d c)).
Proof.
  intros g Hstart. pose proof (reached_inv ms) as Hg. fold g in Hg.
  pose proof (inv_handle_lt g start src Hg Hstart) as Hsrc.
  destruct (shortest_distances_spec g src Hg Hsrc)
    as (final & fuel0 & Hfuel & Hreach & Hdij).
  exists (fuel0 `max` S (locationCount g)). intros fuel Hle.
  destruct (simulate_component g start src fuel Hg Hstart) as (order & _ & Hsim & _ & Hin);
    [lia|].
  eexists _, _. split_and!; [exact Hsim| |].
  - unfold optimizeDeliveryPlan. rewrite Hstart, (Hfuel fuel) by lia. done.
  - intros i other Hi.
    pose proof (lookup_lt_Some _ _ _ Hi) as Hlt. rewrite (inv_names_length g Hg) in Hlt.
    pose proof (list_lookup_total_correct _ _ _ Hi) as Hname.
    apply (inv_index g Hg) in Hi. rewrite (Hin other i Hi).
    rewrite report_lookup by done. split.
    + intros Hnot. destruct (ri_dist _ _ _ _ _ Hreach i Hlt) as [Hmax|Hc]; [|done].
      by rewrite report_line_unreachable, Hname.
    + intros Hnonneg Hfit Hc. specialize (Hdij Hnonneg Hfit).
      destruct (final_exact _ _ _ (inv_targets g Hg) Hsrc Hnonneg Hfit final Hdij i Hlt)
        as [Hyes _].
      destruct (Hyes Hc) as [_ Hfin].
      rewrite report_line_eta, Hname by lia. by eexists _, _.
Qed.

Lemma traversal_agrees_with_plan_witness :
  locationToIndex example_graph !! "A" = Some 0
  ∧ ∃ fuel names lines,
      simulateDelivery fuel example_graph "A" = Some (Deliveries names)
      ∧ optimizeDeliveryPlan fuel example_graph "A" = Some (Plan lines).
Proof.
  assert (locationToIndex example_graph !! "A" = Some 0) as Hsrc by reflexivity.
  split; [exact Hsrc|].
  destruct (traversal_agrees_with_plan example_mutations "A" 0 Hsrc) as [fuel0 Hall].
  destruct (Hall fuel0 (le_n fuel0)) as (names & lines & Hsim & Hplan & _).
  by exists fuel0, names, lines.
Defined.

(** ** The traversal goes level by level *)

Section levels.

Variable adj : list (list (nat * Z)).
Variable n : nat.
Variable src : nat.
Hypothesis Htargets : targets_below n adj.

Lemma min_hops_unique v k k' : min_hops adj src v k → min_hops adj src v k' → k = k'.
Proof.
  intros [Hh Hl] [Hh' Hl']. specialize (Hl _ Hh'). specialize (Hl' _ Hh). lia.
Qed.

Lemma StronglySorted_all (R : relation nat) (l : list nat) :
  (∀ x y, x ∈ l → y ∈ l → R x y) → StronglySorted R l.
Proof.
  induction l as [|x l IH]; intros HR; constructor.
  - apply IH. intros y z Hy Hz. apply HR; by apply list_elem_of_further.
  - apply Forall_forall. intros y Hy.
    apply HR; [apply list_elem_of_here|by apply list_elem_of_further].
Qed.

Lemma StronglySorted_lookup_lt (R : relation nat) (l : list nat) : ∀ i j x y,
  StronglySorted R l → i < j → l !! i = Some x → l !! j = Some y → R x y.
Proof.
  induction l as [|z l IH]; intros i j x y Hs Hij Hi Hj; [done|].
  apply StronglySorted_cons in Hs as [Hall Hs].
  destruct j as [|j]; [lia|]. simpl in Hj. destruct i as [|i]; simpl in Hi.
  - injection Hi as ->. rewrite Forall_forall in Hall.
    apply Hall. by eapply list_elem_of_lookup_2.
  - apply (IH i j); [done|lia|done..].
Qed.

Lemma bfs_levels_init : bfs_levels adj src [src] [].
Proof.
  assert (min_hops adj src src 0) as Hmin by (split; [constructor|lia]).
  split; simpl.
  - intros x ->%list_elem_of_singleton. by exists 0.
  - repeat constructor.
  - intros c x kc kx [= <-] ->%list_elem_of_singleton Hc Hx.
    rewrite (min_hops_unique _ _ _ Hx Hc). lia.
Qed.

(** A location that is neither delivered nor waiting is more than one level
    beyond the head of the queue. *)
Lemma unvisited_far visited curr q out D :
  bfs_inv adj n src visited (curr :: q) out →
  bfs_levels adj src (curr :: q) out →
  min_hops adj src curr D →
  ∀ w k, hops adj src w k → w ∉ out ++ curr :: q → S D ≤ k.
Proof.
  intros Hinv [Hmin Hsorted Hfront] Hcurr w k.
  induction 1 as [|u w k Hhops IH Hedge]; intros Hw.
  - destruct Hw. apply (bi_source _ _ _ _ _ _ Hinv).
  - destruct (decide (u ∈ out ++ curr :: q)) as [Hu|Hu]; [|specialize (IH Hu); lia].
    apply elem_of_app in Hu as [Hu|Hu].
    { destruct Hw. by apply (bi_closed _ _ _ _ _ _ Hinv u w). }
    destruct (Hmin u) as [ku Hku]; [rewrite elem_of_app; by right|].
    assert (ku ≤ k) as Hle by (by apply Hku).
    assert (D ≤ ku); [|lia].
    apply StronglySorted_app_1_r, StronglySorted_cons in Hsorted as [Hall _].
    apply elem_of_cons in Hu as [->|Hu].
    + rewrite (min_hops_unique _ _ _ Hku Hcurr). done.
    + rewrite Forall_forall in Hall. by apply (Hall u Hu D ku).
Qed.

Lemma bfs_levels_step visited curr q out :
  bfs_inv adj n src visited (curr :: q) out →
  bfs_levels adj src (curr :: q) out →
  bfs_levels adj src (visit_neighbors (row adj curr) visited q).2 (out ++ [curr]).
Proof.
  intros Hinv Hlev.
  pose proof (unvisited_far visited curr q out) as Hfar.
  destruct Hlev as [Hmin Hsorted Hfront].
  destruct (Hmin curr) as [D HD];
    [rewrite elem_of_app; right; apply list_elem_of_here|].
  specialize (Hfar D Hinv (mk_bfs_levels _ _ _ _ Hmin Hsorted Hfront) HD).
  assert (Forall (λ p : nat * Z, p.1 < length visited) (row adj curr)) as Hrow.
  { apply Forall_forall. intros p Hp. rewrite (bi_length _ _ _ _ _ _ Hinv).
    by eapply Htargets. }
  destruct (visit_neighbors_spec (row adj curr) visited q Hrow) as (Hq & _ & _).
  rewrite Hq.
  set (W := unvisited_neighbors (row adj curr) visited).
  assert (∀ w, w ∈ W → min_hops adj src w (S D)) as HW.
  { intros w Hw. apply elem_of_unvisited_neighbors in Hw as [Hedge Hvis].
    assert (edge adj curr w) as He by (by apply edge_target).
    split; [econstructor; [apply HD|done]|].
    intros k Hk. apply (Hfar w k Hk). intros Hin.
    assert (w < n) as Hwn by (by apply (bi_below _ _ _ _ _ _ Hinv)).
    apply (bi_marked _ _ _ _ _ _ Hinv w Hwn) in Hin. congruence. }
  assert (∀ x kx, x ∈ out ++ curr :: q → min_hops adj src x kx → kx ≤ S D) as Hold.
  { intros x kx [Hx|Hx]%elem_of_app Hkx.
    - assert (curr ∈ curr :: q) as Hc by apply list_elem_of_here.
      pose proof (StronglySorted_app_1_elem_of _ _ _ _ _ Hsorted Hx Hc kx D Hkx HD). lia.
    - by apply (Hfront curr x D kx). }
  assert ((out ++ [curr]) ++ q ++ W = (out ++ curr :: q) ++ W) as Hseq
    by (by rewrite <- !app_assoc).
  split.
  - intros x. rewrite Hseq. intros [Hx|Hx]%elem_of_app; [by apply Hmin|].
    exists (S D). by apply HW.
  - rewrite Hseq. apply StronglySorted_app_2; [|done|].
    + intros x w Hx Hw kx kw Hkx Hkw.
      rewrite (min_hops_unique _ _ _ Hkw (HW w Hw)). by eapply Hold.
    + apply StronglySorted_all. intros x y Hx Hy kx ky Hkx Hky.
      rewrite (min_hops_unique _ _ _ Hkx (HW x Hx)).
      rewrite (min_hops_unique _ _ _ Hky (HW y Hy)). done.
  - intros c x kc kx Hhead Hx Hkc Hkx.
    assert (D ≤ kc) as HDc.
    { apply head_Some_elem_of in Hhead.
      apply elem_of_app in Hhead as [Hc|Hc].
      - apply StronglySorted_app_1_r, StronglySorted_cons in Hsorted as [Hall _].
        rewrite Forall_forall in Hall. by apply (Hall c Hc D kc).
      - rewrite (min_hops_unique _ _ _ Hkc (HW c Hc)). lia. }
    apply elem_of_app in Hx as [Hx|Hx].
    + assert (kx ≤ S D); [|lia]. apply (Hold x); [|done].
      rewrite elem_of_app. right. by apply list_elem_of_further.
    + rewrite (min_hops_unique _ _ _ Hkx (HW x Hx)). lia.
Qed.

Lemma bfs_loop_levels fuel : ∀ visited q out final,
  bfs_inv adj n src visited q out →
  bfs_levels adj src q out →
  bfs_loop fuel adj visited q out = Some final →
  StronglySorted (level_le adj src) final
  ∧ ∀ x, x ∈ final → ∃ k, min_hops adj src x k.
Proof.
  induction fuel as [|fuel IH]; intros visited q out final Hinv Hlev Hloop; [done|].
  simpl in Hloop. destruct q as [|curr q].
  - injection Hloop as <-. destruct Hlev as [Hmin Hsorted _].
    rewrite app_nil_r in *. done.
  - pose proof (bfs_inv_step adj n src Htargets visited curr q out Hinv) as Hinv'.
    pose proof (bfs_levels_step visited curr q out Hinv Hlev) as Hlev'.
    unfold row in Hinv', Hlev'.
    destruct (visit_neighbors (adj !!! curr) visited q) as [visited' q'].
    by eapply IH.
Qed.

End levels.

(** X20. The traversal goes level by level: every location it delivers to
    has a least number of routes from the start, and a location delivered
    earlier is never more routes away from the start than one delivered
    later. *)
Theorem bfs_level_order (ms : list mutation) (start : string) (src fuel : nat) :
  let g := run_mutations ms empty_dpo in
  locationToIndex g !! start = Some src →
  locationCount g < fuel →
  ∃ order,
    bfs_order fuel g src = Some order
    ∧ (∀ h, h ∈ order → ∃ k, min_hops (adjList g) src h k)
    ∧ ∀ i j u v ku kv,
        i ≤ j → order !! i = Some u → order !! j = Some v →
        min_hops (adjList g) src u ku → min_hops (adjList g) src v kv →
        ku ≤ kv.
Proof.
  intros g Hsrc Hfuel. pose proof (reached_inv ms) as Hg. fold g in Hg.
  pose proof (inv_handle_lt g start src Hg Hsrc) as Hlt.
  pose proof (inv_targets g Hg) as Htargets.
  pose proof (bfs_inv_init (adjList g) (locationCount g) src Hlt) as Hinit.
  destruct (bfs_loop_complete (adjList g) (locationCount g) src Htargets fuel
              _ [src] [] Hinit) as (order & Hrun & _); [simpl; lia|].
  destruct (bfs_loop_levels (adjList g) (locationCount g) src Htargets fuel
              _ [src] [] order Hinit (bfs_levels_init (adjList g) src) Hrun)
    as [Hsorted Hmin].
  exists order. split_and!; [done..|].
  intros i j u v ku kv Hij Hi Hj Hku Hkv.
  destruct (decide (i = j)) as [->|Hne].
  - assert (u = v) as -> by congruence.
    rewrite (min_hops_unique _ _ _ _ _ Hku Hkv). done.
  - apply (StronglySorted_lookup_lt _ _ i j u v Hsorted); [lia|done..].
Qed.

Lemma bfs_level_order_witness :
  locationToIndex example_graph !! "A" = Some 0
  ∧ locationCount example_graph < 4
  ∧ ∃ order, bfs_order 4 example_graph 0 = Some order
             ∧ ∀ h, h ∈ order → ∃ k, min_hops (adjList example_graph) 0 h k.
Proof.
  assert (locationToIndex example_graph !! "A" = Some 0) as Hsrc by reflexivity.
  assert (locationCount example_graph < 4) as Hfuel by (vm_compute; lia).
  split; [exact Hsrc|]. split; [exact Hfuel|].
  destruct (bfs_level_order example_mutations "A" 0 4 Hsrc Hfuel)
    as (order & Horder & Hmin & _).
  by exists order.
Defined.
